(** * ingesta.py: PostgreSQL tables to CSV files to S3

    A shallow embedding of [src/ingesta.py] and the properties of its
    identifier guard, existence check, chunked exporter, upload stage and
    [main] orchestration.

    Python values are modelled as follows.
    - [str] is a list of Unicode code points ([N]); [lit] turns an ASCII
      literal into such a list.
    - Functions that touch the outside world run in the monad [M]: they
      take a [World] (the local files and the chronological trace of
      observable calls) and give an [outcome] and the next [World].
    - An [outcome] is a returned value, a raised exception, or
      [SystemExit] with its code.
    - PostgreSQL and S3 are oracles ([Database], [Aws]): total functions
      from a request to its reply, fixed for the duration of a run.  So
      is the local disk ([Disk], a part of the [World]) for the requests
      whose outcome the script cannot know: making a directory, opening
      a file and writing to it.
    - The builtins [int] and the non-ASCII part of [str.upper] are
      parameters of the definitions that use them. *)

From Stdlib Require Import ZArith NArith List String Ascii Bool Lia.
From stdpp Require Import base option list gmap.
Import ListNotations.

Local Open Scope Z_scope.

(** ** Python strings *)

Abbreviation char := N (only parsing).
Abbreviation str := (list N) (only parsing).

Definition lit (s : string) : str :=
  List.map N_of_ascii (list_ascii_of_string s).

(** Truthiness of a [str]: only the empty string is falsy. *)
Definition truthy (s : str) : bool :=
  match s with [] => false | _ :: _ => true end.

Definition NEWLINE : char := 10%N.
Definition SLASH : char := 47%N.
Definition COMMA : char := 44%N.
Definition DQUOTE : char := 34%N.

Definition in_range (lo hi c : N) : bool := ((lo <=? c) && (c <=? hi))%N.

(** [str.isspace] for one code point (CPython's [_PyUnicode_IsWhitespace]). *)
Definition isspace (c : char) : bool :=
  in_range 9 13 c || in_range 28 32 c || (c =? 133)%N || (c =? 160)%N
  || (c =? 5760)%N || in_range 8192 8202 c || (c =? 8232)%N
  || (c =? 8233)%N || (c =? 8239)%N || (c =? 8287)%N || (c =? 12288)%N.

Fixpoint lstrip_by (p : char -> bool) (s : str) : str :=
  match s with
  | c :: s' => if p c then lstrip_by p s' else s
  | [] => []
  end.

Fixpoint rstrip_by (p : char -> bool) (s : str) : str :=
  match s with
  | [] => []
  | c :: s' =>
      match rstrip_by p s' with
      | [] => if p c then [] else [c]
      | r => c :: r
      end
  end.

(** [s.strip()] *)
Definition strip (s : str) : str := rstrip_by isspace (lstrip_by isspace s).

(** [s.rstrip('/')] *)
Definition rstrip_slash (s : str) : str := rstrip_by (N.eqb SLASH) s.

(** [s.split(",")]: never empty, [''.split(",") == ['']]. *)
Fixpoint split_comma (s : str) : list str :=
  match s with
  | [] => [[]]
  | c :: s' =>
      if (c =? COMMA)%N then [] :: split_comma s'
      else match split_comma s' with
           | h :: t => (c :: h) :: t
           | [] => [[c]]
           end
  end.

(** [posixpath.basename]: what follows the last slash. *)
Fixpoint basename (p : str) : str :=
  match p with
  | [] => []
  | c :: p' =>
      if existsb (N.eqb SLASH) p' then basename p'
      else if (c =? SLASH)%N then p' else p
  end.

Definition startswith_slash (s : str) : bool :=
  match s with c :: _ => (c =? SLASH)%N | [] => false end.

Definition endswith_slash (s : str) : bool :=
  match List.rev s with c :: _ => (c =? SLASH)%N | [] => false end.

(** [posixpath.join(a, b)] for two components. *)
Definition path_join (a b : str) : str :=
  if startswith_slash b then b
  else if negb (truthy a) || endswith_slash a then a ++ b
  else a ++ [SLASH] ++ b.

(** ASCII part of [str.upper]. *)
Definition ascii_upper (c : char) : char :=
  if in_range 97 122 c then (c - 32)%N else c.

Section Upper.
(** [unicode_upper c] is the full upper-case mapping of a code point
    above the ASCII range, as given by the interpreter's Unicode
    database. *)
Variable unicode_upper : char -> str.

Definition upper_char (c : char) : str :=
  if (c <? 128)%N then [ascii_upper c] else unicode_upper c.

(** [s.upper()] *)
Definition str_upper (s : str) : str := List.flat_map upper_char s.
End Upper.

(** ** Exceptions, outcomes and the world *)

Inductive exn : Type :=
  | ValueError (offending : str)    (* carries the value it rejects *)
  | DatabaseError                   (* raised by the driver *)
  | PandasError                     (* raised by the data-frame library *)
  | TypeError                       (* a delimiter that is not one character *)
  | CsvError                        (* raised by the CSV writer *)
  | FileNotFoundError
  | FileExistsError
  | OSError                         (* any other failure of the disk *)
  | NoCredentialsError
  | PartialCredentialsError
  | ClientError
  | S3OtherError.

Inductive outcome (A : Type) : Type :=
  | Ret (a : A)
  | Raise (e : exn)
  | Exit (code : Z).                (* SystemExit(code) *)
Arguments Ret {A} a.
Arguments Raise {A} e.
Arguments Exit {A} code.

(** [csv.QUOTE_*] *)
Inductive quoting : Type :=
  | QUOTE_MINIMAL | QUOTE_ALL | QUOTE_NONNUMERIC | QUOTE_NONE.

Definition quoting_value (q : quoting) : Z :=
  match q with
  | QUOTE_MINIMAL => 0 | QUOTE_ALL => 1
  | QUOTE_NONNUMERIC => 2 | QUOTE_NONE => 3
  end.

Record csv_format : Type := mk_csv_format {
  fmt_sep : str;
  fmt_quoting : quoting;
  fmt_lineterminator : str
}.

(** A data frame: column labels and rows of cells. *)
Record DataFrame : Type := mk_frame {
  columns : list str;
  rows : list (list str)
}.

(** One line of a CSV file as [DataFrame.to_csv] writes it; the rendering
    of a line under its format is left to the CSV writer. *)
Inductive csv_line : Type :=
  | HeaderLine (fmt : csv_format) (cols : list str)
  | DataLine (fmt : csv_format) (cells : list str).

Definition is_header (l : csv_line) : bool :=
  match l with HeaderLine _ _ => true | DataLine _ _ => false end.

Definition header_count (f : list csv_line) : nat :=
  List.length (List.filter is_header f).

Inductive file_mode : Type := ModeWrite | ModeAppend.

Inductive stream : Type := Stdout | Stderr.

(** The lines the program prints, with the values they interpolate. *)
Inductive message : Type :=
  | MsgMissingEnv
  | MsgMissingBucket
  | MsgWarnSkipped (tbl db schema : str)
  | MsgOkExport (table out_path : str) (row_count : nat)
  | MsgNoneExported
  | MsgErrCredentials
  | MsgErrUpload
  | MsgOkUpload (bucket key : str)
  | MsgDone
  | MsgDuration.

(** The calls the program makes to the outside, in the order it makes
    them.  An event records that the call was made with these arguments,
    whatever came of it: [EvExecute] is the existence check asking the
    engine for a statement, also when no connection can be opened and
    the statement never reaches the server. *)
Inductive event : Type :=
  | EvPrint (s : stream) (m : message)
  | EvMakedirs (path : str)
  | EvExecute (sql : str) (params : list (str * str))
  | EvReadSql (query : str) (chunksize : Z)
  | EvToCsv (path : str) (mode : file_mode) (fmt : csv_format)
            (header : bool) (chunk : DataFrame)
  | EvUploadFile (local_path bucket key : str).

(** What the disk answers to a request. *)
Inductive io_reply : Type :=
  | IoOk
  | IoError (e : exn).

(** What becomes of writing to a file: all of it is written; or the file
    cannot be opened and nothing happens to it; or the file is opened
    (and created when missing) and the writing fails after [written]
    has reached it. *)
Inductive write_reply : Type :=
  | WriteOk
  | WriteRefused (e : exn)
  | WriteBroken (e : exn) (written : list csv_line).

(** [makedirs_reply path] answers [os.makedirs(path, exist_ok=True)] for
    a non-empty path at which no file lies; [csv_reply path mode fmt
    header chunk] answers the opening of [path] and the writing of
    [chunk] by a CSV writer that accepts the format. *)
Record Disk : Type := mk_disk {
  makedirs_reply : str -> io_reply;
  csv_reply : str -> file_mode -> csv_format -> bool -> DataFrame -> write_reply
}.

Record World : Type := mk_world {
  files : gmap str (list csv_line);
  trace : list event;
  disk : Disk
}.

Definition M (A : Type) : Type := World -> outcome A * World.

Definition ret {A} (a : A) : M A := fun w => (Ret a, w).
Definition raise {A} (e : exn) : M A := fun w => (Raise e, w).
Definition sys_exit {A} (code : Z) : M A := fun w => (Exit code, w).

Definition bind {A B} (m : M A) (k : A -> M B) : M B :=
  fun w =>
    match m w with
    | (Ret a, w') => k a w'
    | (Raise e, w') => (Raise e, w')
    | (Exit c, w') => (Exit c, w')
    end.

Notation "'let*' x ':=' m 'in' k" := (bind m (fun x => k))
  (at level 10, x name, m at level 100, k at level 200).
Notation "m ';;' k" := (bind m (fun _ => k))
  (at level 100, k at level 200, right associativity).

Definition emit (e : event) : M unit :=
  fun w => (Ret tt, mk_world (files w) (trace w ++ [e]) (disk w)).

Definition print (s : stream) (m : message) : M unit := emit (EvPrint s m).

Definition when_ (b : bool) (m : M unit) : M unit :=
  if b then m else ret tt.

(** [for x in xs: acc = body(acc, x)], stopped by the first exception. *)
Fixpoint for_in {A S} (body : S -> A -> M S) (xs : list A) (acc : S) : M S :=
  match xs with
  | [] => ret acc
  | x :: xs' => let* acc' := body acc x in for_in body xs' acc'
  end.

(** ** Module-level constants *)

Record Globals : Type := mk_globals {
  PG_HOST : str;
  PG_PORT : Z;
  PG_DB : str;
  PG_USER : str;
  PG_PASSWORD : str;
  PG_SCHEMA : str;
  TABLES_ENV : str;
  TABLES : list str;
  CSV_SEP : str;
  CSV_QUOTE : str;
  CSV_LINE_TERMINATOR : str;
  CHUNKSIZE : Z;
  OUTPUT_DIR : str;
  S3_BUCKET : str;
  S3_PREFIX : str;
  AWS_REGION : str;
  TIMESTAMP : str
}.

(** [os.getenv(key, default)] *)
Definition getenv (env : gmap str str) (key : string) (default : str) : str :=
  match env !! lit key with Some v => v | None => default end.

(** [[t.strip() for t in TABLES_ENV.split(",") if t.strip()]] *)
Definition parse_tables (tables_env : str) : list str :=
  List.map strip (List.filter (fun t => truthy (strip t)) (split_comma tables_env)).

Section Load.
(** [py_int] is the builtin [int] on a [str], [None] standing for
    [ValueError]. *)
Variable unicode_upper : char -> str.
Variable py_int : str -> option Z.

(** The assignments at the top of the module, in order.  [now] is
    [datetime.utcnow().strftime("%Y%m%dT%H%M%SZ")].  The two [int(...)]
    conversions can raise [ValueError] while the module is loaded. *)
Definition load_globals (now : str) (env : gmap str str) : exn + Globals :=
  let pg_host := getenv env "PG_HOST" (lit "localhost") in
  match py_int (getenv env "PG_PORT" (lit "5432")) with
  | None => inl (ValueError (getenv env "PG_PORT" (lit "5432")))
  | Some pg_port =>
      let pg_db := getenv env "PG_DB" [] in
      let pg_user := getenv env "PG_USER" [] in
      let pg_password := getenv env "PG_PASSWORD" [] in
      let pg_schema := getenv env "PG_SCHEMA" (lit "public") in
      let tables_env := getenv env "TABLES" [] in
      let tables := parse_tables tables_env in
      let csv_sep := getenv env "CSV_SEP" (lit ",") in
      let csv_quote :=
        str_upper unicode_upper (getenv env "CSV_QUOTE" (lit "MINIMAL")) in
      let csv_line_terminator := getenv env "CSV_LINE_TERMINATOR" [NEWLINE] in
      match py_int (getenv env "CHUNKSIZE" (lit "100000")) with
      | None => inl (ValueError (getenv env "CHUNKSIZE" (lit "100000")))
      | Some chunksize =>
          let output_dir := getenv env "OUTPUT_DIR" (lit "/app/out") in
          let s3_bucket := getenv env "S3_BUCKET" [] in
          let s3_prefix := getenv env "S3_PREFIX" [] in
          let aws_region :=
            match env !! lit "AWS_DEFAULT_REGION" with
            | Some (c :: r) => c :: r
            | _ => getenv env "AWS_REGION" (lit "us-east-1")
            end in
          inr (mk_globals pg_host pg_port pg_db pg_user pg_password
                 pg_schema tables_env tables csv_sep csv_quote
                 csv_line_terminator chunksize output_dir s3_bucket
                 s3_prefix aws_region now)
      end
  end.
End Load.

(** ** The outside world: PostgreSQL and S3 *)

Inductive db_reply (A : Type) : Type :=
  | DbOk (a : A)
  | DbFail.
Arguments DbOk {A} a.
Arguments DbFail {A}.

(** [db_scalar sql params] is what [conn.execute(text(sql), params).scalar()]
    gives ([None] when the result has no row); [db_select query] is the
    column labels and the rows selected by [query]; [db_fetch_unsized
    query size] is the sequence of frames the driver delivers for [query]
    when it is asked for batches of a [size] that is not positive, which
    each driver answers in its own way. *)
Record Database : Type := mk_database {
  db_scalar : str -> list (str * str) -> db_reply (option Z);
  db_select : str -> db_reply DataFrame;
  db_fetch_unsized : str -> Z -> db_reply (list DataFrame)
}.

(** What [create_engine] is given; creating the engine opens no
    connection. *)
Record Engine : Type := mk_engine {
  engine_user : str;
  engine_password : str;
  engine_host : str;
  engine_port : Z;
  engine_db : str;
  pool_pre_ping : bool;
  pool_recycle : Z;
  search_path : str;
  server : Database
}.

Inductive upload_reply : Type :=
  | UploadOk
  | UploadNoCredentials
  | UploadPartialCredentials
  | UploadClientError
  | UploadOtherError.

(** An S3 client: [upload_file local_path bucket key] is the reply to
    [cli.upload_file(local_path, bucket, key)].  [Aws] gives the client
    of a region. *)
Record S3Client : Type := mk_s3_client {
  upload_file : str -> str -> str -> upload_reply
}.

Definition Aws : Type := str -> S3Client.

(** ** The functions of the module *)

(** The dictionary literal of [csv_quote_const]. *)
Definition quote_table : gmap str quoting :=
  <[lit "MINIMAL" := QUOTE_MINIMAL]>
    (<[lit "ALL" := QUOTE_ALL]>
       (<[lit "NONNUMERIC" := QUOTE_NONNUMERIC]>
          (<[lit "NONE" := QUOTE_NONE]> ∅))).

Definition csv_quote_const (name : str) : quoting :=
  match quote_table !! name with
  | Some q => q
  | None => QUOTE_MINIMAL
  end.

(** [os.makedirs(path, exist_ok=True)]: the empty path is no directory,
    a file that lies at [path] is in the way, and for the rest the disk
    answers. *)
Definition ensure_output_dir (path : str) : M unit :=
  emit (EvMakedirs path) ;;
  fun w =>
    match path with
    | [] => (Raise FileNotFoundError, w)
    | _ :: _ =>
        match files w !! path with
        | Some _ => (Raise FileExistsError, w)
        | None =>
            match makedirs_reply (disk w) path with
            | IoOk => (Ret tt, w)
            | IoError e => (Raise e, w)
            end
        end
    end.

Definition get_engine (g : Globals) (pg : Database) : Engine :=
  mk_engine (PG_USER g) (PG_PASSWORD g) (PG_HOST g) (PG_PORT g) (PG_DB g)
    true 3600 (PG_SCHEMA g) pg.

(** *** [VALID_IDENT = re.compile(r"^[A-Za-z0-9_]+$")] *)

Definition is_ident_char (c : char) : bool :=
  in_range 65 90 c || in_range 97 122 c || in_range 48 57 c || (c =? 95)%N.

(** [$] without [re.MULTILINE]: the end of the string, or just before a
    newline that is the last character of the string. *)
Definition at_dollar (rest : str) : bool :=
  match rest with
  | [] => true
  | [c] => (c =? NEWLINE)%N
  | _ => false
  end.

(** [[A-Za-z0-9_]+] followed by the continuation [k]: greedy, giving
    characters back until [k] accepts. *)
Fixpoint class_plus (k : str -> bool) (s : str) : bool :=
  match s with
  | c :: s' => is_ident_char c && (class_plus k s' || k s')
  | [] => false
  end.

(** [VALID_IDENT.match(name)] as a truth value; [match] anchors at the
    start of the string, where [^] holds. *)
Definition VALID_IDENT_match (name : str) : bool := class_plus at_dollar name.

Definition safe_ident (name : str) : M str :=
  if negb (VALID_IDENT_match name) then raise (ValueError name)
  else ret name.

(** The statement of [table_exists]. *)
Definition CATALOG_SQL : str :=
  [NEWLINE] ++ lit "        SELECT COUNT(*) AS c" ++ [NEWLINE]
  ++ lit "        FROM information_schema.tables" ++ [NEWLINE]
  ++ lit "        WHERE table_schema = :schema AND table_name = :tbl" ++ [NEWLINE]
  ++ lit "    ".

Definition execute_scalar (engine : Engine) (sql : str)
    (params : list (str * str)) : M (option Z) :=
  emit (EvExecute sql params) ;;
  match db_scalar (server engine) sql params with
  | DbOk r => ret r
  | DbFail => raise DatabaseError
  end.

(** [r or 0] for an optional integer. *)
Definition or_0 (r : option Z) : Z :=
  match r with
  | Some c => if c =? 0 then 0 else c
  | None => 0
  end.

Definition table_exists (g : Globals) (engine : Engine) (table_name : str)
    : M bool :=
  let q := CATALOG_SQL in
  let* r := execute_scalar engine q
              [(lit "schema", PG_SCHEMA g); (lit "tbl", table_name)] in
  ret (or_0 r >? 0).

(** *** The chunked reader *)

(** Successive slices of at most [n] elements; [fuel] bounds the number
    of slices. *)
Fixpoint chunks_fuel {A} (fuel n : nat) (l : list A) : list (list A) :=
  match fuel with
  | O => []
  | S fuel' =>
      match l with
      | [] => []
      | _ :: _ => firstn n l :: chunks_fuel fuel' n (skipn n l)
      end
  end.

Definition chunks_of {A} (n : nat) (l : list A) : list (list A) :=
  chunks_fuel (List.length l) n l.

(** The frames the data-frame library makes of a result for a positive
    chunk size [c]: the rows in arrival order in batches of [c], the last
    one shorter when [c] does not divide their number, every frame with
    the columns of the result; a result without rows gives one frame
    without rows, which still has the columns. *)
Definition frames_of (df : DataFrame) (c : Z) : list DataFrame :=
  match rows df with
  | [] => [mk_frame (columns df) []]
  | _ :: _ =>
      List.map (mk_frame (columns df)) (chunks_of (Z.to_nat c) (rows df))
  end.

(** [pd.read_sql(query, engine, chunksize=C)], consumed as the loop of
    [export_table_to_csv] consumes it: the query is run and its result
    delivered as [frames_of] says.  For a chunk size that is not positive
    the batches are what the driver makes of such a size. *)
Definition read_sql (engine : Engine) (query : str) (chunksize : Z)
    : M (list DataFrame) :=
  emit (EvReadSql query chunksize) ;;
  if 0 <? chunksize
  then match db_select (server engine) query with
       | DbFail => raise DatabaseError
       | DbOk df => ret (frames_of df chunksize)
       end
  else match db_fetch_unsized (server engine) query chunksize with
       | DbFail => raise DatabaseError
       | DbOk frames => ret frames
       end.

(** The lines one [to_csv] call produces ([index=False]). *)
Definition frame_lines (fmt : csv_format) (header : bool) (chunk : DataFrame)
    : list csv_line :=
  (if header then [HeaderLine fmt (columns chunk)] else [])
  ++ List.map (DataLine fmt) (rows chunk).

(** [chunk.to_csv(path, mode=..., index=False, sep=..., quoting=...,
    lineterminator=..., header=...)].  The file is opened first, which
    creates it when it is missing; mode ["w"] empties it, mode ["a"]
    keeps what it holds.  Then the CSV writer is set up, which raises
    [TypeError] for a separator that is not one character.  Then the
    lines are written.  The disk decides whether the file can be opened
    and whether the writing goes through. *)
Definition to_csv (chunk : DataFrame) (path : str) (mode : file_mode)
    (fmt : csv_format) (header : bool) : M unit :=
  fun w =>
    let old := match mode with
               | ModeAppend => default [] (files w !! path)
               | ModeWrite => []
               end in
    let tr := trace w ++ [EvToCsv path mode fmt header chunk] in
    let opened new := mk_world (<[path := old ++ new]> (files w)) tr (disk w) in
    match csv_reply (disk w) path mode fmt header chunk with
    | WriteRefused e => (Raise e, mk_world (files w) tr (disk w))
    | WriteOk =>
        if (List.length (fmt_sep fmt) =? 1)%nat
        then (Ret tt, opened (frame_lines fmt header chunk))
        else (Raise TypeError, opened [])
    | WriteBroken e written =>
        if (List.length (fmt_sep fmt) =? 1)%nat
        then (Raise e, opened written)
        else (Raise TypeError, opened [])
    end.

Definition select_query (schema table : str) : str :=
  lit "SELECT * FROM " ++ [DQUOTE] ++ schema ++ [DQUOTE] ++ lit "."
  ++ [DQUOTE] ++ table ++ [DQUOTE].

Definition csv_filename (g : Globals) (table : str) : str :=
  table ++ lit "_" ++ TIMESTAMP g ++ lit ".csv".

(** The body of the [for chunk in ...] loop; the loop state is
    [(header_written, row_count)]. *)
Definition export_chunk (g : Globals) (out_path : str) (quote : quoting)
    (st : bool * nat) (chunk : DataFrame) : M (bool * nat) :=
  let '(header_written, row_count) := st in
  to_csv chunk out_path ModeAppend
    (mk_csv_format (CSV_SEP g) quote (CSV_LINE_TERMINATOR g))
    (negb header_written) ;;
  let row_count := (row_count + List.length (rows chunk))%nat in
  let header_written := true in
  ret (header_written, row_count).

Definition export_table_to_csv (g : Globals) (engine : Engine)
    (table_name out_dir : str) : M str :=
  let* table := safe_ident table_name in
  let* schema := safe_ident (PG_SCHEMA g) in
  let filename := csv_filename g table in
  let out_path := path_join out_dir filename in
  let quote := csv_quote_const (CSV_QUOTE g) in
  let header_written := false in
  let row_count := O in
  let query := select_query schema table in
  let* chunks := read_sql engine query (CHUNKSIZE g) in
  let* st := for_in (export_chunk g out_path quote) chunks
               (header_written, row_count) in
  print Stdout (MsgOkExport table out_path (snd st)) ;;
  ret out_path.

(** *** Upload *)

Definition s3_client (g : Globals) (aws : Aws) : S3Client := aws (AWS_REGION g).

(** The key [upload_to_s3] computes before it calls the client. *)
Definition upload_key (local_path : str) (prefix : option str) : str :=
  let key := basename local_path in
  match prefix with
  | Some p => if truthy p then rstrip_slash p ++ [SLASH] ++ key else key
  | None => key
  end.

Definition upload_to_s3 (g : Globals) (aws : Aws)
    (local_path bucket : str) (prefix : option str) : M str :=
  let key := upload_key local_path prefix in
  let cli := s3_client g aws in
  emit (EvUploadFile local_path bucket key) ;;
  match upload_file cli local_path bucket key with
  | UploadNoCredentials =>
      print Stderr MsgErrCredentials ;; raise NoCredentialsError
  | UploadPartialCredentials =>
      print Stderr MsgErrCredentials ;; raise PartialCredentialsError
  | UploadClientError => print Stderr MsgErrUpload ;; raise ClientError
  | UploadOtherError => raise S3OtherError
  | UploadOk => print Stdout (MsgOkUpload bucket key) ;; ret key
  end.

(** *** [main] *)

(** The body of [for tbl in TABLES]; the loop state is [exported_files]. *)
Definition export_step (g : Globals) (engine : Engine)
    (exported_files : list str) (tbl : str) : M (list str) :=
  let* found := table_exists g engine tbl in
  if negb found then
    print Stdout (MsgWarnSkipped tbl (PG_DB g) (PG_SCHEMA g)) ;;
    ret exported_files
  else
    let* path := export_table_to_csv g engine tbl (OUTPUT_DIR g) in
    ret (exported_files ++ [path]).

Definition upload_step (g : Globals) (aws : Aws) (_ : unit) (path : str)
    : M unit :=
  upload_to_s3 g aws path (S3_BUCKET g) (Some (S3_PREFIX g)) ;; ret tt.

Definition main (g : Globals) (pg : Database) (aws : Aws) : M unit :=
  when_ (negb (truthy (PG_DB g)) || negb (truthy (PG_USER g))
         || negb (truthy (PG_PASSWORD g))
         || match TABLES g with [] => true | _ => false end)
    (print Stderr MsgMissingEnv ;; sys_exit 1) ;;
  when_ (negb (truthy (S3_BUCKET g)))
    (print Stderr MsgMissingBucket ;; sys_exit 1) ;;
  ensure_output_dir (OUTPUT_DIR g) ;;
  let engine := get_engine g pg in
  let* exported_files := for_in (export_step g engine) (TABLES g) [] in
  when_ (match exported_files with [] => true | _ => false end)
    (print Stderr MsgNoneExported ;; sys_exit 2) ;;
  for_in (upload_step g aws) exported_files tt ;;
  print Stdout MsgDone.

(** The exit status of the process for each outcome of the script. *)
Definition exit_status {A} (o : outcome A) : Z :=
  match o with
  | Ret _ => 0
  | Raise _ => 1
  | Exit code => code
  end.

Section Run.
Variable unicode_upper : char -> str.
Variable py_int : str -> option Z.

(** The script from its first line: the module-level assignments,
    then [try: main() finally: print(duration)]. *)
Definition run (now : str) (env : gmap str str) (pg : Database) (aws : Aws)
    : M unit :=
  match load_globals unicode_upper py_int now env with
  | inl e => raise e
  | inr g =>
      fun w =>
        let '(o, w') := main g pg aws w in
        (o, snd (print Stdout MsgDuration w'))
  end.
End Run.

(** * Properties *)

(** ** Strings *)

(** The identifier of the spec (4.1): not empty, ASCII letters, digits and
    underscore only. *)
Definition spec_identifier (name : str) : bool :=
  truthy name && forallb is_ident_char name.

Lemma is_ident_char_not_newline c : is_ident_char c = true -> c <> NEWLINE.
Proof. intros H ->. vm_compute in H. discriminate. Qed.

Lemma is_ident_char_bounds c :
  is_ident_char c = true -> (48 <= c <= 122)%N.
Proof.
  unfold is_ident_char, in_range.
  rewrite !orb_true_iff, !andb_true_iff, !N.leb_le, N.eqb_eq. lia.
Qed.

Lemma is_ident_char_not_space c : is_ident_char c = true -> isspace c = false.
Proof.
  intros H%is_ident_char_bounds. apply not_true_is_false. intros Hs.
  unfold isspace, in_range in Hs.
  rewrite !orb_true_iff, !andb_true_iff, !N.leb_le, !N.eqb_eq in Hs. lia.
Qed.

(** What the compiled pattern accepts under [match]: a run of identifier
    characters up to the end of the string or up to a final newline. *)
Lemma class_plus_at_dollar s :
  class_plus at_dollar s = true <->
  exists body, spec_identifier body = true /\ (s = body \/ s = body ++ [NEWLINE]).
Proof.
  induction s as [|c s IH]; simpl.
  - split; [discriminate|].
    intros (body & Hb & [<- | H]); [discriminate|].
    destruct body; discriminate.
  - rewrite andb_true_iff, orb_true_iff, IH. split.
    + intros (Hc & [(body & Hb & Hs) | Hd]).
      * exists (c :: body). split.
        -- unfold spec_identifier in *. simpl. rewrite Hc.
           apply andb_true_iff in Hb. apply Hb.
        -- destruct Hs as [-> | ->]; [left | right]; reflexivity.
      * exists [c]. split.
        -- unfold spec_identifier. simpl. rewrite Hc. reflexivity.
        -- destruct s as [|d [|e s]]; simpl in Hd; try discriminate.
           ++ left; reflexivity.
           ++ apply N.eqb_eq in Hd. subst d. right; reflexivity.
    + intros (body & Hb & Hs).
      unfold spec_identifier in Hb. apply andb_true_iff in Hb as [Hne Hall].
      destruct body as [|b body]; [discriminate|]. simpl in Hall.
      apply andb_true_iff in Hall as [Hb Hall].
      assert (c = b) as ->
        by (destruct Hs as [Hs | Hs]; simpl in Hs; injection Hs; auto).
      split; [exact Hb|].
      destruct body as [|b' body].
      * right. destruct Hs as [Hs | Hs]; injection Hs as ->; reflexivity.
      * left. exists (b' :: body). split.
        -- unfold spec_identifier. simpl. simpl in Hall. exact Hall.
        -- destruct Hs as [Hs | Hs]; injection Hs as ->; [left | right];
             reflexivity.
Qed.

Lemma VALID_IDENT_match_spec name :
  VALID_IDENT_match name = true <->
  exists body, spec_identifier body = true
               /\ (name = body \/ name = body ++ [NEWLINE]).
Proof. apply class_plus_at_dollar. Qed.

Lemma spec_identifier_match name :
  spec_identifier name = true -> VALID_IDENT_match name = true.
Proof. intros H. apply VALID_IDENT_match_spec. exists name. auto. Qed.

Lemma spec_identifier_snoc_newline body :
  spec_identifier (body ++ [NEWLINE]) = false.
Proof.
  unfold spec_identifier. rewrite forallb_app. simpl.
  rewrite !andb_false_r. reflexivity.
Qed.

Lemma safe_ident_ok name w :
  VALID_IDENT_match name = true -> safe_ident name w = (Ret name, w).
Proof. intros H. unfold safe_ident. rewrite H. reflexivity. Qed.

Lemma safe_ident_raises name w :
  VALID_IDENT_match name = false ->
  safe_ident name w = (Raise (ValueError name), w).
Proof. intros H. unfold safe_ident. rewrite H. reflexivity. Qed.

(** The guard meets the spec on every string that does not end in a
    newline after an identifier. *)
Lemma safe_ident_spec name w :
  (forall body, spec_identifier body = true -> name <> body ++ [NEWLINE]) ->
  safe_ident name w =
    (if spec_identifier name then Ret name else Raise (ValueError name), w).
Proof.
  intros Hnl. destruct (spec_identifier name) eqn:Hs.
  - apply safe_ident_ok, spec_identifier_match, Hs.
  - apply safe_ident_raises. destruct (VALID_IDENT_match name) eqn:Hm; [|reflexivity].
    apply VALID_IDENT_match_spec in Hm as (body & Hb & [-> | ->]).
    + congruence.
    + exfalso. eapply Hnl; eauto.
Qed.

(** An identifier followed by a newline passes the guard. *)
Lemma safe_ident_newline body w :
  spec_identifier body = true ->
  safe_ident (body ++ [NEWLINE]) w = (Ret (body ++ [NEWLINE]), w).
Proof.
  intros H. apply safe_ident_ok, VALID_IDENT_match_spec. exists body. auto.
Qed.

(** C2, at the input that separates the code from the claim: the schema
    name [public] followed by a newline is not an identifier of the spec
    (it is not matched by ^[A-Za-z0-9_]+$ read as "letters, digits and
    underscore only"), yet [safe_ident] returns it unchanged instead of
    raising, because [$] also matches before a final newline. *)
Theorem safe_ident_accepts_trailing_newline :
  spec_identifier (lit "public" ++ [NEWLINE]) = false
  /\ forallb is_ident_char (lit "public" ++ [NEWLINE]) = false
  /\ forall w, safe_ident (lit "public" ++ [NEWLINE]) w
               = (Ret (lit "public" ++ [NEWLINE]), w).
Proof.
  split; [reflexivity|]. split; [reflexivity|].
  intros w. reflexivity.
Qed.

(** ** Quoting mode *)


(** An upper-case mapping for text that stays in the ASCII range, where
    [str_upper] never consults it. *)
Definition no_unicode_upper (c : char) : str := [c].






(** ** Paths and prefixes *)

Lemma existsb_slash_false p :
  existsb (N.eqb SLASH) p = false <-> ~ List.In SLASH p.
Proof.
  split.
  - intros H Hin. assert (existsb (N.eqb SLASH) p = true) as Ht.
    { apply existsb_exists. exists SLASH. split; [exact Hin|apply N.eqb_refl]. }
    congruence.
  - intros H. apply not_true_is_false. intros Ht.
    apply existsb_exists in Ht as (x & Hin & Hx). apply N.eqb_eq in Hx.
    subst x. exact (H Hin).
Qed.

(** [basename p] is the part of [p] after its last slash: it has no
    slash, and what precedes it is empty or ends with a slash. *)
Lemma basename_spec p :
  ~ List.In SLASH (basename p)
  /\ exists dir, p = dir ++ basename p
                 /\ (dir = [] \/ exists d, dir = d ++ [SLASH]).
Proof.
  induction p as [|c p (IHno & dir & IHeq & IHdir)]; simpl.
  - split; [tauto|]. exists []. auto.
  - destruct (existsb (N.eqb SLASH) p) eqn:Hex.
    + split; [exact IHno|]. exists (c :: dir). split.
      * simpl. f_equal. exact IHeq.
      * right. destruct IHdir as [-> | (d & ->)].
        -- exfalso. simpl in IHeq.
           assert (existsb (N.eqb SLASH) p = false) as Hf
             by (apply existsb_slash_false; rewrite IHeq; exact IHno).
           congruence.
        -- exists (c :: d). reflexivity.
    + apply existsb_slash_false in Hex.
      destruct (N.eqb_spec c SLASH) as [-> | Hne].
      * split; [exact Hex|]. exists [SLASH]. split; [reflexivity|].
        right. exists []. reflexivity.
      * split.
        -- simpl. intros [Heq | Hin]; [congruence | exact (Hex Hin)].
        -- exists []. auto.
Qed.

(** [rstrip_by p s] is [s] without its longest suffix of characters
    satisfying [p]. *)
Lemma rstrip_by_spec p s :
  (exists suffix, s = rstrip_by p s ++ suffix /\ forallb p suffix = true)
  /\ (forall body c, rstrip_by p s = body ++ [c] -> p c = false).
Proof.
  induction s as [|c s ((suffix & IHeq & IHall) & IHlast)]; simpl.
  - split; [exists []; auto|]. intros [|? ?] ? ?; discriminate.
  - destruct (rstrip_by p s) as [|r rs] eqn:Hr.
    + destruct (p c) eqn:Hc.
      * split.
        -- exists (c :: suffix). simpl in *. rewrite Hc, IHall.
           split; [congruence | reflexivity].
        -- intros [|? ?] ? ?; discriminate.
      * split.
        -- exists suffix. simpl in *. split; congruence.
        -- intros [|b [|? ?]] d Hd; simpl in Hd; try discriminate.
           congruence.
    + split.
      * exists suffix. split; [|exact IHall]. simpl. f_equal. exact IHeq.
      * intros [|b body] d Hd; simpl in Hd; [discriminate|].
        injection Hd as -> Hd. eapply IHlast, Hd.
Qed.

Lemma rstrip_slash_spec s :
  (exists k, s = rstrip_slash s ++ List.repeat SLASH k)
  /\ (forall body c, rstrip_slash s = body ++ [c] -> c <> SLASH).
Proof.
  destruct (rstrip_by_spec (N.eqb SLASH) s) as ((suffix & Heq & Hall) & Hlast).
  split.
  - exists (List.length suffix).
    rewrite Heq at 1. unfold rstrip_slash. f_equal.
    clear Heq. induction suffix as [|c suffix IH]; simpl; [reflexivity|].
    cbn [forallb] in Hall. apply andb_true_iff in Hall as [Hc Hs].
    apply N.eqb_eq in Hc. subst c. f_equal. apply IH, Hs.
  - intros body c Hb ->. apply Hlast in Hb.
    rewrite N.eqb_refl in Hb. discriminate.
Qed.

(** ** Existence check *)

(** C4: [table_exists] makes one call to the database, the fixed catalog
    statement with the schema and the table name as bound parameters; when
    the database answers it returns a boolean that is true exactly when
    the count is greater than zero (no row or a zero count give [False],
    not an exception); only a failure of the database itself is raised.
    No file is touched. *)
Theorem table_exists_spec :
  forall (g : Globals) (engine : Engine) (table_name : str) (w : World),
    let params := [(lit "schema", PG_SCHEMA g); (lit "tbl", table_name)] in
    let r := table_exists g engine table_name w in
    trace (snd r) = trace w ++ [EvExecute CATALOG_SQL params]
    /\ files (snd r) = files w
    /\ match db_scalar (server engine) CATALOG_SQL params with
       | DbOk count =>
           exists b, fst r = Ret b
                     /\ (b = true <-> exists c, count = Some c /\ 0 < c)
       | DbFail => fst r = Raise DatabaseError
       end.
Proof.
  intros g engine table_name w params r. subst r.
  unfold table_exists, execute_scalar, bind, emit. simpl. fold params.
  destruct (db_scalar (server engine) CATALOG_SQL params) as [count|]; simpl.
  - repeat apply conj; try reflexivity.
    exists (or_0 count >? 0). split; [reflexivity|].
    unfold or_0. destruct count as [c|].
    + destruct (Z.eqb_spec c 0) as [-> | Hne].
      * split; [discriminate|]. intros (c & [= <-] & Hc). lia.
      * rewrite Z.gtb_ltb, Z.ltb_lt. split.
        -- intros Hc. exists c. auto.
        -- intros (c' & [= <-] & Hc). exact Hc.
    + split; [discriminate|]. intros (c & Hc & _). discriminate.
  - repeat apply conj; reflexivity.
Qed.

(** ** Upload key *)

(** C8: when the client accepts the upload, [upload_to_s3] returns the key
    it uploaded under: the base name of the local path when the prefix is
    absent or empty, and otherwise the prefix without its trailing
    slashes, a slash, and the base name ([basename_spec] and
    [rstrip_slash_spec] say what these two are). *)
Theorem upload_to_s3_key :
  forall (g : Globals) (aws : Aws) (local_path bucket : str)
         (prefix : option str) (w : World),
    let key :=
      match prefix with
      | Some (c :: p) => rstrip_slash (c :: p) ++ [SLASH] ++ basename local_path
      | Some [] | None => basename local_path
      end in
    upload_file (s3_client g aws) local_path bucket key = UploadOk ->
    upload_to_s3 g aws local_path bucket prefix w
    = (Ret key,
       mk_world (files w)
         (trace w ++ [EvUploadFile local_path bucket key;
                      EvPrint Stdout (MsgOkUpload bucket key)]) (disk w)).
Proof.
  intros g aws local_path bucket prefix w key Hok.
  assert (upload_key local_path prefix = key) as Hkey.
  { unfold upload_key, key. destruct prefix as [[|c p]|]; reflexivity. }
  unfold upload_to_s3. rewrite Hkey. unfold bind, emit, print. simpl.
  rewrite Hok. simpl. rewrite <- app_assoc. reflexivity.
Qed.

Definition aws_accepting : Aws :=
  fun _ => mk_s3_client (fun _ _ _ => UploadOk).

Definition globals_example : Globals :=
  mk_globals (lit "localhost") 5432 (lit "shop") (lit "etl") (lit "secret")
    (lit "public") (lit "users") [lit "users"] (lit ",") (lit "MINIMAL")
    [NEWLINE] 2 (lit "/app/out") (lit "lake") (lit "raw//")
    (lit "us-east-1") (lit "20240101T000000Z").

(** A disk that grants every request. *)
Definition disk_ok : Disk :=
  mk_disk (fun _ => IoOk) (fun _ _ _ _ _ => WriteOk).

Definition world_empty : World := mk_world ∅ [] disk_ok.

Lemma upload_to_s3_key_witness :
  upload_to_s3 globals_example aws_accepting
    (lit "/app/out/users_20240101T000000Z.csv") (lit "lake")
    (Some (lit "raw//")) world_empty
  = (Ret (lit "raw/users_20240101T000000Z.csv"),
     mk_world ∅
       [EvUploadFile (lit "/app/out/users_20240101T000000Z.csv") (lit "lake")
          (lit "raw/users_20240101T000000Z.csv");
        EvPrint Stdout
          (MsgOkUpload (lit "lake") (lit "raw/users_20240101T000000Z.csv"))] disk_ok).
Proof.
  exact (upload_to_s3_key globals_example aws_accepting
           (lit "/app/out/users_20240101T000000Z.csv") (lit "lake")
           (Some (lit "raw//")) world_empty eq_refl).
Defined.

(** ** Sequencing *)

Lemma bind_ret {A B} (m : M A) (k : A -> M B) w a w' :
  m w = (Ret a, w') -> bind m k w = k a w'.
Proof. intros H. unfold bind. rewrite H. reflexivity. Qed.

Lemma bind_raise {A B} (m : M A) (k : A -> M B) w e w' :
  m w = (Raise e, w') -> bind m k w = (Raise e, w').
Proof. intros H. unfold bind. rewrite H. reflexivity. Qed.

Lemma bind_exit {A B} (m : M A) (k : A -> M B) w c w' :
  m w = (Exit c, w') -> bind m k w = (Exit c, w').
Proof. intros H. unfold bind. rewrite H. reflexivity. Qed.

(** ** Chunking *)

Section Chunks.
Local Open Scope nat_scope.
Context {A : Type}.

(** [ceil(a / b)] *)
Definition ceil_div (a b : nat) : nat := (a + b - 1) / b.


(** [ceil_div a b] is the least number of slices of [b] that cover [a]. *)
Lemma ceil_div_spec a b :
  0 < b -> 0 < a -> (ceil_div a b - 1) * b < a <= ceil_div a b * b.
Proof.
  intros Hb Ha. unfold ceil_div.
  pose proof (Nat.div_mod_eq (a + b - 1) b) as Hdm.
  pose proof (Nat.mod_upper_bound (a + b - 1) b ltac:(lia)) as Hm.
  assert (0 < (a + b - 1) / b) as Hq.
  { apply Nat.div_str_pos. lia. }
  nia.
Qed.



Lemma chunks_fuel_concat fuel n (l : list A) :
  0 < n -> List.length l <= fuel ->
  List.concat (chunks_fuel fuel n l) = l.
Proof.
  intros Hn. revert l.
  induction fuel as [|fuel IH]; intros l Hl.
  - destruct l; simpl in *; [reflexivity | lia].
  - destruct l as [|x l]; [reflexivity|].
    cbn [chunks_fuel List.concat].
    rewrite IH by (rewrite length_skipn; simpl in *; lia).
    apply firstn_skipn.
Qed.

(** Every slice has between one and [n] elements. *)
Lemma chunks_fuel_sizes fuel n (l : list A) :
  0 < n ->
  List.Forall (fun c => 0 < List.length c <= n) (chunks_fuel fuel n l).
Proof.
  intros Hn. revert l.
  induction fuel as [|fuel IH]; intros l; [constructor|].
  destruct l as [|x l]; [constructor|].
  cbn [chunks_fuel]. constructor; [|apply IH].
  rewrite length_firstn. simpl. lia.
Qed.


Lemma chunks_of_concat n (l : list A) :
  0 < n -> List.concat (chunks_of n l) = l.
Proof. intros Hn. apply chunks_fuel_concat; [exact Hn | lia]. Qed.

Lemma chunks_of_nil_iff n (l : list A) :
  0 < n -> (chunks_of n l = [] <-> l = []).
Proof.
  intros Hn. unfold chunks_of. destruct l; simpl; split; congruence.
Qed.
End Chunks.

(** ** The chunked exporter *)

(** The format every [to_csv] call of a run is given. *)
Definition run_format (g : Globals) : csv_format :=
  mk_csv_format (CSV_SEP g) (csv_quote_const (CSV_QUOTE g))
    (CSV_LINE_TERMINATOR g).

(** The [to_csv] calls of the loop over [chunks], entered with
    [header_written]. *)
Fixpoint append_events (path : str) (fmt : csv_format) (header_written : bool)
    (chunks : list DataFrame) : list event :=
  match chunks with
  | [] => []
  | c :: cs =>
      EvToCsv path ModeAppend fmt (negb header_written) c
      :: append_events path fmt true cs
  end.

(** The lines these calls write. *)
Fixpoint appended_lines (fmt : csv_format) (header_written : bool)
    (chunks : list DataFrame) : list csv_line :=
  match chunks with
  | [] => []
  | c :: cs =>
      frame_lines fmt (negb header_written) c ++ appended_lines fmt true cs
  end.

Definition total_rows (chunks : list DataFrame) : nat :=
  List.length (List.concat (List.map rows chunks)).

(** The files after [lines] were appended at [path]; nothing is written
    when no chunk arrived. *)
Definition files_after (fs : gmap str (list csv_line)) (path : str)
    (chunks : list DataFrame) (lines : list csv_line)
    : gmap str (list csv_line) :=
  match chunks with
  | [] => fs
  | _ :: _ => <[path := default [] (fs !! path) ++ lines]> fs
  end.



Lemma appended_lines_written fmt chunks :
  appended_lines fmt true chunks
  = List.map (DataLine fmt) (List.concat (List.map rows chunks)).
Proof.
  induction chunks as [|c cs IH]; simpl; [reflexivity|].
  rewrite IH, List.map_app. reflexivity.
Qed.

(** Entered with no header written, the loop writes the header of the
    first chunk and then all rows in order. *)
Lemma appended_lines_fresh fmt c cs :
  appended_lines fmt false (c :: cs)
  = HeaderLine fmt (columns c)
    :: List.map (DataLine fmt) (List.concat (List.map rows (c :: cs))).
Proof.
  simpl. rewrite appended_lines_written, List.map_app. reflexivity.
Qed.

(** The disk takes every append to [path]. *)
Definition accepts_appends (d : Disk) (path : str) : Prop :=
  forall fmt header chunk,
    csv_reply d path ModeAppend fmt header chunk = WriteOk.

(** An append the disk takes, with a separator of one character. *)
Lemma to_csv_appends chunk path fmt header w :
  List.length (fmt_sep fmt) = 1%nat ->
  csv_reply (disk w) path ModeAppend fmt header chunk = WriteOk ->
  to_csv chunk path ModeAppend fmt header w
  = (Ret tt,
     mk_world
       (<[path := default [] (files w !! path) ++ frame_lines fmt header chunk]>
          (files w))
       (trace w ++ [EvToCsv path ModeAppend fmt header chunk]) (disk w)).
Proof.
  intros Hsep Hok. unfold to_csv. rewrite Hok, Hsep. reflexivity.
Qed.

Lemma export_loop_run g path chunks :
  List.length (CSV_SEP g) = 1%nat ->
  forall hw rc w,
    accepts_appends (disk w) path ->
    for_in (export_chunk g path (csv_quote_const (CSV_QUOTE g))) chunks
      (hw, rc) w
    = (Ret (match chunks with [] => hw | _ :: _ => true end,
            (rc + total_rows chunks)%nat),
       mk_world
         (files_after (files w) path chunks
            (appended_lines (run_format g) hw chunks))
         (trace w ++ append_events path (run_format g) hw chunks) (disk w)).
Proof.
  intros Hsep. induction chunks as [|c cs IH]; intros hw rc w Hdisk.
  - simpl. unfold ret, total_rows. simpl.
    rewrite Nat.add_0_r, app_nil_r. destruct w; reflexivity.
  - cbn [for_in]. unfold bind at 1. unfold export_chunk at 1.
    unfold bind at 1. fold (run_format g).
    rewrite to_csv_appends by (try exact Hsep; apply Hdisk).
    unfold ret at 1. rewrite IH by exact Hdisk. cbn [files trace disk].
    f_equal.
    + f_equal. unfold total_rows. cbn [List.map List.concat].
      rewrite length_app. f_equal; [destruct cs; reflexivity | lia].
    + f_equal.
      * unfold files_after. destruct cs as [|c' cs].
        -- simpl. rewrite app_nil_r. reflexivity.
        -- rewrite lookup_insert_eq, insert_insert_eq. cbn [default].
           cbn [appended_lines]. unfold id. rewrite <- !app_assoc.
           reflexivity.
      * cbn [append_events]. rewrite <- app_assoc. reflexivity.
Qed.

Lemma frames_of_rows df c :
  0 < c -> List.concat (List.map rows (frames_of df c)) = rows df.
Proof.
  intros Hc. unfold frames_of. destruct (rows df) as [|r rs] eqn:Hrows;
    [reflexivity|].
  rewrite List.map_map. cbn [rows]. rewrite List.map_id.
  apply chunks_of_concat. lia.
Qed.


Lemma frames_of_first df c :
  exists f fs, frames_of df c = f :: fs /\ columns f = columns df.
Proof.
  unfold frames_of. destruct (rows df) as [|r rs]; [eauto|].
  unfold chunks_of. cbn [List.length chunks_fuel List.map]. eauto.
Qed.

Lemma frames_of_lines fmt df c :
  0 < c ->
  appended_lines fmt false (frames_of df c)
  = HeaderLine fmt (columns df) :: List.map (DataLine fmt) (rows df).
Proof.
  intros Hc. pose proof (frames_of_rows df c Hc) as Hrows.
  destruct (frames_of_first df c) as (f & fs & Hf & Hcols).
  rewrite Hf in Hrows |- *.
  rewrite appended_lines_fresh, Hrows, Hcols. reflexivity.
Qed.

(** The lines an export of [df] adds to its file. *)
Definition export_lines (g : Globals) (df : DataFrame) : list csv_line :=
  HeaderLine (run_format g) (columns df)
  :: List.map (DataLine (run_format g)) (rows df).

(** The whole of [export_table_to_csv] when both names pass the guard,
    the database answers the query and the disk takes the appends. *)
Lemma export_table_to_csv_run g engine table_name out_dir df w :
  VALID_IDENT_match table_name = true ->
  VALID_IDENT_match (PG_SCHEMA g) = true ->
  0 < CHUNKSIZE g ->
  db_select (server engine) (select_query (PG_SCHEMA g) table_name) = DbOk df ->
  List.length (CSV_SEP g) = 1%nat ->
  accepts_appends (disk w) (path_join out_dir (csv_filename g table_name)) ->
  let out_path := path_join out_dir (csv_filename g table_name) in
  let chunks := frames_of df (CHUNKSIZE g) in
  export_table_to_csv g engine table_name out_dir w
  = (Ret out_path,
     mk_world
       (<[out_path := default [] (files w !! out_path) ++ export_lines g df]>
          (files w))
       (trace w
        ++ [EvReadSql (select_query (PG_SCHEMA g) table_name) (CHUNKSIZE g)]
        ++ append_events out_path (run_format g) false chunks
        ++ [EvPrint Stdout
              (MsgOkExport table_name out_path (List.length (rows df)))])
       (disk w)).
Proof.
  intros Ht Hs Hc Hdb Hsep Hdisk out_path chunks.
  unfold export_table_to_csv.
  rewrite (bind_ret _ _ _ _ _ (safe_ident_ok _ _ Ht)).
  rewrite (bind_ret _ _ _ _ _ (safe_ident_ok _ _ Hs)).
  fold out_path.
  assert (read_sql engine (select_query (PG_SCHEMA g) table_name) (CHUNKSIZE g) w
          = (Ret chunks,
             mk_world (files w)
               (trace w ++ [EvReadSql (select_query (PG_SCHEMA g) table_name)
                              (CHUNKSIZE g)]) (disk w))) as Hread.
  { unfold read_sql, bind, emit. cbn [fst snd].
    apply Z.ltb_lt in Hc. rewrite Hc, Hdb. reflexivity. }
  rewrite (bind_ret _ _ _ _ _ Hread).
  rewrite (bind_ret _ _ _ _ _
             (export_loop_run g out_path chunks Hsep false O
                (mk_world (files w)
                   (trace w ++ [EvReadSql (select_query (PG_SCHEMA g) table_name)
                                  (CHUNKSIZE g)]) (disk w)) Hdisk)).
  unfold bind, print, emit, ret. cbn [files trace disk fst snd].
  apply Z.ltb_lt in Hc as Hc'. apply Z.ltb_lt in Hc'.
  f_equal. f_equal.
  - unfold chunks. rewrite frames_of_lines by exact Hc'.
    destruct (frames_of_first df (CHUNKSIZE g)) as (f & fs & -> & _).
    reflexivity.
  - rewrite <- !app_assoc. unfold total_rows, chunks.
    rewrite frames_of_rows by exact Hc'. reflexivity.
Qed.

Lemma header_count_data_lines fmt rs :
  header_count (List.map (DataLine fmt) rs) = 0%nat.
Proof. induction rs as [|x xs IH]; [reflexivity | exact IH]. Qed.

Lemma header_count_app a b :
  header_count (a ++ b) = (header_count a + header_count b)%nat.
Proof. unfold header_count. rewrite List.filter_app, length_app. reflexivity. Qed.

Lemma header_count_fresh_file fmt cols rs :
  header_count (HeaderLine fmt cols :: List.map (DataLine fmt) rs) = 1%nat.
Proof.
  change (S (header_count (List.map (DataLine fmt) rs)) = 1%nat).
  rewrite header_count_data_lines. reflexivity.
Qed.

Definition frame_no_rows : DataFrame := mk_frame [lit "id"; lit "name"] [].

(** A database in which every table exists and has no rows. *)
Definition pg_empty_tables : Database :=
  mk_database (fun _ _ => DbOk (Some 1)) (fun _ => DbOk frame_no_rows)
    (fun _ _ => DbFail).

(** A table without rows comes as one frame without rows, so its export
    makes one append, which writes the header, and reports no row. *)
Lemma export_empty_table_writes_header :
  export_table_to_csv globals_example
    (get_engine globals_example pg_empty_tables)
    (lit "users") (lit "/app/out") world_empty
  = (Ret (lit "/app/out/users_20240101T000000Z.csv"),
     mk_world
       (<[lit "/app/out/users_20240101T000000Z.csv"
          := [HeaderLine (run_format globals_example) [lit "id"; lit "name"]]]>
          ∅)
       [EvReadSql (select_query (lit "public") (lit "users")) 2;
        EvToCsv (lit "/app/out/users_20240101T000000Z.csv") ModeAppend
          (run_format globals_example) true frame_no_rows;
        EvPrint Stdout
          (MsgOkExport (lit "users")
             (lit "/app/out/users_20240101T000000Z.csv") 0)]
       disk_ok).
Proof. vm_compute. reflexivity. Qed.


Definition frame_three_rows : DataFrame :=
  mk_frame [lit "id"; lit "name"]
    [[lit "1"; lit "ana"]; [lit "2"; lit "luis"]; [lit "3"; lit "eva"]].

(** A database in which every table exists and has three rows. *)
Definition pg_three_rows : Database :=
  mk_database (fun _ _ => DbOk (Some 1)) (fun _ => DbOk frame_three_rows)
    (fun _ _ => DbFail).


(** ** What a computation adds to the trace and leaves in the files *)

(** [emits Q m]: whatever the world and the outcome, [m] only extends the
    trace, and every event it adds satisfies [Q]. *)
Definition emits {A} (Q : event -> Prop) (m : M A) : Prop :=
  forall w, exists evs,
    trace (snd (m w)) = trace w ++ evs /\ List.Forall Q evs.

(** [keeps_files m]: [m] leaves every file as it was. *)
Definition keeps_files {A} (m : M A) : Prop :=
  forall w, files (snd (m w)) = files w.

Section Emits.
Context {A B : Type} (Q : event -> Prop).

Lemma emits_pure (o : outcome A) : emits Q (fun w => (o, w)).
Proof. intros w. exists []. simpl. rewrite app_nil_r. auto. Qed.

Lemma emits_emit e : Q e -> emits Q (emit e).
Proof. intros He w. exists [e]. simpl. auto. Qed.

(** Sequencing, with a fact [P] known of the value [m] returns. *)
Lemma emits_bind (P : A -> Prop) (m : M A) (k : A -> M B) :
  emits Q m ->
  (forall w a, fst (m w) = Ret a -> P a) ->
  (forall a, P a -> emits Q (k a)) ->
  emits Q (bind m k).
Proof.
  intros Hm HP Hk w. unfold bind.
  destruct (Hm w) as (evs1 & Ht1 & HQ1). specialize (HP w).
  destruct (m w) as [[a | e | c] w1]; simpl in *.
  - destruct (Hk a (HP a eq_refl) w1) as (evs2 & Ht2 & HQ2).
    exists (evs1 ++ evs2). rewrite Ht2, Ht1, app_assoc. split; [reflexivity|].
    apply Forall_app; auto.
  - exists evs1. auto.
  - exists evs1. auto.
Qed.

Lemma keeps_files_bind (m : M A) (k : A -> M B) :
  keeps_files m -> (forall a, keeps_files (k a)) -> keeps_files (bind m k).
Proof.
  intros Hm Hk w. unfold bind. specialize (Hm w).
  destruct (m w) as [[a | e | c] w1]; simpl in *; [|exact Hm..].
  rewrite Hk. exact Hm.
Qed.
End Emits.

Lemma emits_seq {A B} (Q : event -> Prop) (m : M A) (k : A -> M B) :
  emits Q m -> (forall a, emits Q (k a)) -> emits Q (bind m k).
Proof.
  intros Hm Hk. apply (emits_bind Q (fun _ => True)); auto.
Qed.

Lemma emits_when (Q : event -> Prop) b (m : M unit) :
  emits Q m -> emits Q (when_ b m).
Proof. intros Hm. destruct b; [exact Hm | apply emits_pure]. Qed.

Lemma emits_for_in {A S} (Q : event -> Prop) (body : S -> A -> M S) xs :
  (forall acc x, List.In x xs -> emits Q (body acc x)) ->
  forall acc, emits Q (for_in body xs acc).
Proof.
  induction xs as [|x xs IH]; intros Hbody acc; cbn [for_in].
  - apply emits_pure.
  - apply emits_seq.
    + apply Hbody. left. reflexivity.
    + intros acc'. apply IH. intros acc'' y Hy. apply Hbody. right. exact Hy.
Qed.

Lemma emits_weaken {A} (Q Q' : event -> Prop) (m : M A) :
  (forall e, Q e -> Q' e) -> emits Q m -> emits Q' m.
Proof.
  intros HQ Hm w. destruct (Hm w) as (evs & Ht & Hall).
  exists evs. split; [exact Ht|]. eapply Forall_impl; eauto.
Qed.

Lemma keeps_files_pure {A} (o : outcome A) : keeps_files (fun w => (o, w)).
Proof. intros w. reflexivity. Qed.

Lemma keeps_files_emit e : keeps_files (emit e).
Proof. intros w. reflexivity. Qed.

Lemma keeps_files_when b (m : M unit) :
  keeps_files m -> keeps_files (when_ b m).
Proof. intros Hm. destruct b; [exact Hm | apply keeps_files_pure]. Qed.

Lemma keeps_files_for_in {A S} (body : S -> A -> M S) xs :
  (forall acc x, keeps_files (body acc x)) ->
  forall acc, keeps_files (for_in body xs acc).
Proof.
  intros Hbody. induction xs as [|x xs IH]; intros acc; cbn [for_in].
  - apply keeps_files_pure.
  - apply keeps_files_bind; [apply Hbody | exact IH].
Qed.

(** *** The functions of the module, one by one *)

(** The directory at [path] can be made, or is there already: the path is
    not empty, no file lies at it and the disk agrees. *)
Definition can_make_dir (w : World) (path : str) : Prop :=
  path <> [] /\ files w !! path = None /\ makedirs_reply (disk w) path = IoOk.

Lemma ensure_output_dir_run path w :
  can_make_dir w path ->
  ensure_output_dir path w
  = (Ret tt, mk_world (files w) (trace w ++ [EvMakedirs path]) (disk w)).
Proof.
  intros (Hne & Hfile & Hdisk). unfold ensure_output_dir, bind, emit.
  cbn [fst snd files trace disk]. destruct path as [|c path]; [contradiction|].
  rewrite Hfile, Hdisk. reflexivity.
Qed.

(** [ensure_output_dir] makes its one call and returns or raises. *)
Lemma ensure_output_dir_cases path w :
  exists o,
    ensure_output_dir path w
    = (o, mk_world (files w) (trace w ++ [EvMakedirs path]) (disk w))
    /\ (o = Ret tt \/ exists e, o = Raise e).
Proof.
  unfold ensure_output_dir, bind, emit. cbn [fst snd files trace disk].
  destruct path as [|c path]; [eauto|].
  destruct (files w !! (c :: path)); [eauto|].
  destruct (makedirs_reply (disk w) (c :: path)); eauto.
Qed.

Lemma emits_ensure_output_dir Q path :
  Q (EvMakedirs path) -> emits Q (ensure_output_dir path).
Proof.
  intros HQ w. destruct (ensure_output_dir_cases path w) as (o & -> & _).
  exists [EvMakedirs path]. cbn [snd trace]. auto.
Qed.

Lemma keeps_files_ensure_output_dir path : keeps_files (ensure_output_dir path).
Proof.
  intros w. destruct (ensure_output_dir_cases path w) as (o & -> & _).
  reflexivity.
Qed.

Lemma safe_ident_cases name :
  safe_ident name = ret name \/ safe_ident name = raise (ValueError name).
Proof. unfold safe_ident. destruct (VALID_IDENT_match name); auto. Qed.

Lemma emits_safe_ident Q name : emits Q (safe_ident name).
Proof.
  destruct (safe_ident_cases name) as [-> | ->]; apply emits_pure.
Qed.

Lemma safe_ident_returns name w a :
  fst (safe_ident name w) = Ret a -> a = name /\ VALID_IDENT_match name = true.
Proof.
  unfold safe_ident. destruct (VALID_IDENT_match name); simpl; [|discriminate].
  intros [= <-]. auto.
Qed.

Lemma table_exists_run g engine table_name w :
  table_exists g engine table_name w
  = (match db_scalar (server engine) CATALOG_SQL
             [(lit "schema", PG_SCHEMA g); (lit "tbl", table_name)] with
     | DbOk count => Ret (or_0 count >? 0)
     | DbFail => Raise DatabaseError
     end,
     mk_world (files w)
       (trace w ++ [EvExecute CATALOG_SQL
                      [(lit "schema", PG_SCHEMA g); (lit "tbl", table_name)]]) (disk w)).
Proof.
  unfold table_exists, execute_scalar, bind, emit. simpl.
  destruct (db_scalar _ _ _); reflexivity.
Qed.

Lemma keeps_files_upload_to_s3 g aws local_path bucket prefix :
  keeps_files (upload_to_s3 g aws local_path bucket prefix).
Proof.
  intros w. unfold upload_to_s3, bind, emit, print, emit, raise, ret. simpl.
  destruct (upload_file _ _ _ _); reflexivity.
Qed.

Lemma keeps_files_upload_step g aws u path :
  keeps_files (upload_step g aws u path).
Proof.
  unfold upload_step. apply keeps_files_bind.
  - apply keeps_files_upload_to_s3.
  - intros a. apply keeps_files_pure.
Qed.

(** ** Configuration checks of [main] *)

(** The condition of the first [if] of [main]. *)
Definition env_incomplete (g : Globals) : bool :=
  negb (truthy (PG_DB g)) || negb (truthy (PG_USER g))
  || negb (truthy (PG_PASSWORD g))
  || match TABLES g with [] => true | _ => false end.

(** What [main] does once both checks have passed. *)
Definition main_checked (g : Globals) (pg : Database) (aws : Aws) : M unit :=
  let engine := get_engine g pg in
  let* exported_files := for_in (export_step g engine) (TABLES g) [] in
  when_ (match exported_files with [] => true | _ => false end)
    (print Stderr MsgNoneExported ;; sys_exit 2) ;;
  for_in (upload_step g aws) exported_files tt ;;
  print Stdout MsgDone.

Lemma main_env_incomplete g pg aws w :
  env_incomplete g = true ->
  main g pg aws w
  = (Exit 1, mk_world (files w) (trace w ++ [EvPrint Stderr MsgMissingEnv]) (disk w)).
Proof.
  intros H. unfold main. fold (env_incomplete g). rewrite H. reflexivity.
Qed.

Lemma main_bucket_missing g pg aws w :
  env_incomplete g = false -> truthy (S3_BUCKET g) = false ->
  main g pg aws w
  = (Exit 1, mk_world (files w) (trace w ++ [EvPrint Stderr MsgMissingBucket]) (disk w)).
Proof.
  intros H Hb. unfold main. fold (env_incomplete g). rewrite H, Hb.
  destruct w; reflexivity.
Qed.

Lemma main_past_checks g pg aws w :
  env_incomplete g = false -> truthy (S3_BUCKET g) = true ->
  main g pg aws w
  = (ensure_output_dir (OUTPUT_DIR g) ;; main_checked g pg aws) w.
Proof.
  intros H Hb. unfold main. fold (env_incomplete g). rewrite H, Hb.
  reflexivity.
Qed.

Lemma main_config_ok g pg aws w :
  env_incomplete g = false -> truthy (S3_BUCKET g) = true ->
  can_make_dir w (OUTPUT_DIR g) ->
  main g pg aws w
  = main_checked g pg aws
      (mk_world (files w) (trace w ++ [EvMakedirs (OUTPUT_DIR g)]) (disk w)).
Proof.
  intros H Hb Hdir. rewrite main_past_checks by assumption.
  unfold bind. rewrite (ensure_output_dir_run _ _ Hdir). reflexivity.
Qed.

Lemma env_incomplete_false g :
  env_incomplete g = false <->
  truthy (PG_DB g) = true /\ truthy (PG_USER g) = true
  /\ truthy (PG_PASSWORD g) = true /\ TABLES g <> [].
Proof.
  unfold env_incomplete.
  rewrite !orb_false_iff, !negb_false_iff.
  destruct (TABLES g); intuition congruence.
Qed.

(** A setting that is absent from the environment or set to the empty
    string. *)
Definition missing_or_empty (env : gmap str str) (key : string) : Prop :=
  env !! lit key = None \/ env !! lit key = Some [].

Lemma getenv_missing_or_empty env key :
  missing_or_empty env key -> getenv env key [] = [].
Proof.
  unfold getenv, missing_or_empty. intros [H | H]; rewrite H; reflexivity.
Qed.

Lemma load_globals_fields u py_int now env g :
  load_globals u py_int now env = inr g ->
  PG_DB g = getenv env "PG_DB" []
  /\ PG_USER g = getenv env "PG_USER" []
  /\ PG_PASSWORD g = getenv env "PG_PASSWORD" []
  /\ TABLES_ENV g = getenv env "TABLES" []
  /\ TABLES g = parse_tables (getenv env "TABLES" [])
  /\ S3_BUCKET g = getenv env "S3_BUCKET" [].
Proof.
  unfold load_globals.
  destruct (py_int (getenv env "PG_PORT" (lit "5432"))); [|discriminate].
  destruct (py_int (getenv env "CHUNKSIZE" (lit "100000"))); [|discriminate].
  intros [= <-]. cbn. repeat apply conj; reflexivity.
Qed.

(** An instance of the builtin [int] for strings of ASCII digits. *)
Fixpoint digits_value (acc : Z) (s : str) : option Z :=
  match s with
  | [] => Some acc
  | c :: s' =>
      if in_range 48 57 c
      then digits_value (10 * acc + Z.of_N (c - 48)) s'
      else None
  end.

Definition int_of_digits (s : str) : option Z :=
  match s with
  | [] => None
  | _ :: _ => digits_value 0 s
  end.

(** C5: when the database name, the user, the password or the bucket is
    absent or empty, or the table list has no name, the run ends with
    exit status 1 having done nothing but print: no directory is made, no
    query is sent, no file changes.  When the module loads, the outcome is
    [SystemExit(1)]. *)
Theorem run_exits_1_on_missing_config :
  forall (unicode_upper : char -> str) (py_int : str -> option Z)
         (now : str) (env : gmap str str) (pg : Database) (aws : Aws)
         (w : World),
    missing_or_empty env "PG_DB" \/ missing_or_empty env "PG_USER"
    \/ missing_or_empty env "PG_PASSWORD"
    \/ parse_tables (getenv env "TABLES" []) = []
    \/ missing_or_empty env "S3_BUCKET" ->
    let r := run unicode_upper py_int now env pg aws w in
    exit_status (fst r) = 1
    /\ (forall g, load_globals unicode_upper py_int now env = inr g ->
                  fst r = Exit 1)
    /\ files (snd r) = files w
    /\ exists evs, trace (snd r) = trace w ++ evs
                   /\ List.Forall (fun e => exists s m, e = EvPrint s m) evs.
Proof.
  intros u py_int now env pg aws w Hmissing r. subst r. unfold run.
  destruct (load_globals u py_int now env) as [e | g] eqn:Hload.
  - simpl. repeat apply conj; try reflexivity; [discriminate|].
    exists []. rewrite app_nil_r. auto.
  - apply load_globals_fields in Hload
      as (Hdb & Huser & Hpw & _ & Htables & Hbucket).
    assert (exists m, main g pg aws w
                      = (Exit 1, mk_world (files w)
                                   (trace w ++ [EvPrint Stderr m]) (disk w))) as (m & Hm).
    { destruct (env_incomplete g) eqn:Hinc.
      - eexists. apply main_env_incomplete, Hinc.
      - eexists. apply main_bucket_missing; [exact Hinc|].
        apply env_incomplete_false in Hinc as (H1 & H2 & H3 & H4).
        rewrite Hdb in H1. rewrite Huser in H2. rewrite Hpw in H3.
        rewrite Htables in H4. rewrite Hbucket.
        destruct Hmissing as [H | [H | [H | [H | H]]]];
          try (apply getenv_missing_or_empty in H); try rewrite H in *;
          try discriminate; try contradiction. reflexivity. }
    rewrite Hm. simpl. repeat apply conj; try reflexivity.
    eexists. rewrite <- app_assoc. split; [reflexivity|].
    repeat constructor; eauto.
Qed.

Lemma run_exits_1_on_missing_config_witness :
  let r := run no_unicode_upper int_of_digits (lit "20240101T000000Z")
             (<[lit "PG_DB" := lit "shop"]> ∅) pg_three_rows aws_accepting
             world_empty in
  exit_status (fst r) = 1 /\ files (snd r) = ∅.
Proof.
  destruct (run_exits_1_on_missing_config no_unicode_upper int_of_digits
              (lit "20240101T000000Z") (<[lit "PG_DB" := lit "shop"]> ∅)
              pg_three_rows aws_accepting world_empty)
    as (Hexit & _ & Hfiles & _).
  - right. left. left. vm_compute. reflexivity.
  - split; [exact Hexit | exact Hfiles].
Defined.

(** ** Tables that do not exist *)

(** The catalog answers for [tbl] with no count or a count that is not
    positive. *)
Definition reported_absent (g : Globals) (pg : Database) (tbl : str) : Prop :=
  exists count,
    db_scalar pg CATALOG_SQL [(lit "schema", PG_SCHEMA g); (lit "tbl", tbl)]
      = DbOk count
    /\ forall c, count = Some c -> c <= 0.

(** What one skipped table adds to the trace. *)
Definition skip_events (g : Globals) (tbl : str) : list event :=
  [EvExecute CATALOG_SQL [(lit "schema", PG_SCHEMA g); (lit "tbl", tbl)];
   EvPrint Stdout (MsgWarnSkipped tbl (PG_DB g) (PG_SCHEMA g))].

Lemma export_step_skips g pg exported_files tbl w :
  reported_absent g pg tbl ->
  export_step g (get_engine g pg) exported_files tbl w
  = (Ret exported_files,
     mk_world (files w) (trace w ++ skip_events g tbl) (disk w)).
Proof.
  intros (count & Hdb & Hcount).
  assert ((or_0 count >? 0) = false) as Hneg.
  { unfold or_0. destruct count as [c|]; [|reflexivity].
    specialize (Hcount c eq_refl).
    destruct (Z.eqb_spec c 0); [reflexivity|].
    rewrite Z.gtb_ltb. apply Z.ltb_ge. exact Hcount. }
  unfold export_step. unfold bind at 1. rewrite table_exists_run.
  cbn [server get_engine]. rewrite Hdb, Hneg.
  cbn [negb]. unfold bind, print, emit, ret. cbn [files trace].
  rewrite <- app_assoc. reflexivity.
Qed.

Lemma export_loop_skips g pg tbls :
  (forall tbl, List.In tbl tbls -> reported_absent g pg tbl) ->
  forall exported_files w,
    for_in (export_step g (get_engine g pg)) tbls exported_files w
    = (Ret exported_files,
       mk_world (files w) (trace w ++ List.flat_map (skip_events g) tbls) (disk w)).
Proof.
  induction tbls as [|tbl tbls IH]; intros Habs exported_files w.
  - simpl. unfold ret. rewrite app_nil_r. destruct w; reflexivity.
  - cbn [for_in].
    rewrite (bind_ret _ _ _ _ _
               (export_step_skips g pg exported_files tbl w
                  (Habs tbl (or_introl eq_refl)))).
    rewrite IH by (intros t Ht; apply Habs; right; exact Ht).
    cbn [files trace List.flat_map]. rewrite <- app_assoc. reflexivity.
Qed.

(** C6: when the configuration is complete, the output directory can be
    made and the catalog reports every configured table absent, [main]
    creates the output directory, asks the catalog once per table and
    warns, then ends with [SystemExit(2)], exit status 2; nothing is
    uploaded and no file is written. *)
Theorem main_exits_2_when_nothing_exported :
  forall (g : Globals) (pg : Database) (aws : Aws) (w : World),
    truthy (PG_DB g) = true ->
    truthy (PG_USER g) = true ->
    truthy (PG_PASSWORD g) = true ->
    TABLES g <> [] ->
    truthy (S3_BUCKET g) = true ->
    can_make_dir w (OUTPUT_DIR g) ->
    (forall tbl, List.In tbl (TABLES g) -> reported_absent g pg tbl) ->
    main g pg aws w
    = (Exit 2,
       mk_world (files w)
         (trace w ++ [EvMakedirs (OUTPUT_DIR g)]
          ++ List.flat_map (skip_events g) (TABLES g)
          ++ [EvPrint Stderr MsgNoneExported]) (disk w))
    /\ exit_status (fst (main g pg aws w)) = 2.
Proof.
  intros g pg aws w Hdb Huser Hpw Htables Hbucket Hdir Habs.
  assert (main g pg aws w
          = (Exit 2,
             mk_world (files w)
               (trace w ++ [EvMakedirs (OUTPUT_DIR g)]
                ++ List.flat_map (skip_events g) (TABLES g)
                ++ [EvPrint Stderr MsgNoneExported]) (disk w))) as Hmain.
  { rewrite main_config_ok;
      [| apply env_incomplete_false; auto | exact Hbucket | exact Hdir].
    unfold main_checked.
    rewrite (bind_ret _ _ _ _ _ (export_loop_skips g pg _ Habs [] _)).
    unfold bind, when_, print, emit, sys_exit. cbn [files trace].
    rewrite <- !app_assoc. reflexivity. }
  rewrite Hmain. split; reflexivity.
Qed.

(** A database whose catalog knows no table. *)
Definition pg_no_tables : Database :=
  mk_database (fun _ _ => DbOk (Some 0)) (fun _ => DbFail)
    (fun _ _ => DbFail).

Lemma main_exits_2_when_nothing_exported_witness :
  exit_status (fst (main globals_example pg_no_tables aws_accepting world_empty))
  = 2.
Proof.
  refine (proj2 (main_exits_2_when_nothing_exported globals_example
                   pg_no_tables aws_accepting world_empty
                   eq_refl eq_refl eq_refl _ eq_refl _ _)).
  - discriminate.
  - split; [discriminate | split; vm_compute; reflexivity].
  - intros tbl _. exists (Some 0). split; [reflexivity|].
    intros c [= <-]. lia.
Defined.

(** ** Stripping and splitting *)

Lemma lstrip_by_head p s :
  lstrip_by p s = [] \/ exists c r, lstrip_by p s = c :: r /\ p c = false.
Proof.
  induction s as [|c s IH]; simpl; [left; reflexivity|].
  destruct (p c) eqn:Hc; [exact IH|]. right. eauto.
Qed.

Lemma lstrip_by_all p s : forallb p s = true -> lstrip_by p s = [].
Proof.
  induction s as [|c s IH]; simpl; [reflexivity|].
  intros H. apply andb_true_iff in H as [-> Hs]. apply IH, Hs.
Qed.

Lemma rstrip_by_keeps_head p c s :
  p c = false -> exists r, rstrip_by p (c :: s) = c :: r.
Proof.
  intros Hc. simpl. destruct (rstrip_by p s); rewrite ?Hc; eauto.
Qed.

Lemma rstrip_by_idempotent p s :
  rstrip_by p (rstrip_by p s) = rstrip_by p s.
Proof.
  induction s as [|c s IH]; simpl; [reflexivity|].
  destruct (rstrip_by p s) as [|r rs] eqn:Hr.
  - destruct (p c) eqn:Hc; simpl; rewrite ?Hc; reflexivity.
  - change (rstrip_by p (c :: r :: rs))
      with (match rstrip_by p (r :: rs) with
            | [] => if p c then [] else [c]
            | r' => c :: r'
            end).
    rewrite IH. reflexivity.
Qed.

Lemma strip_idempotent s : strip (strip s) = strip s.
Proof.
  unfold strip.
  destruct (lstrip_by_head isspace s) as [-> | (c & r & -> & Hc)];
    [reflexivity|].
  destruct (rstrip_by_keeps_head isspace c r Hc) as (r' & Hr').
  rewrite Hr'. cbn [lstrip_by]. rewrite Hc, <- Hr'.
  apply rstrip_by_idempotent.
Qed.

(** A stripped string neither starts nor ends with white space. *)
Lemma stripped_edges t :
  strip t = t ->
  (forall c r, t = c :: r -> isspace c = false)
  /\ (forall body c, t = body ++ [c] -> isspace c = false).
Proof.
  intros Ht. split.
  - intros c r ->. unfold strip in Ht.
    destruct (lstrip_by_head isspace (c :: r)) as [Hl | (d & r' & Hl & Hd)];
      rewrite Hl in Ht.
    + discriminate.
    + destruct (rstrip_by_keeps_head isspace d r' Hd) as (r'' & Hr).
      rewrite Hr in Ht. injection Ht as -> _. exact Hd.
  - intros body c ->. unfold strip in Ht.
    eapply (proj2 (rstrip_by_spec isspace _)). exact Ht.
Qed.

(** On a stripped name the guard is exactly the identifier test of the
    spec: such a name cannot end in a newline. *)
Lemma stripped_guard t :
  strip t = t -> VALID_IDENT_match t = spec_identifier t.
Proof.
  intros Ht. destruct (spec_identifier t) eqn:Hs.
  - apply spec_identifier_match, Hs.
  - destruct (VALID_IDENT_match t) eqn:Hm; [|reflexivity].
    apply VALID_IDENT_match_spec in Hm as (body & Hb & [-> | ->]);
      [congruence|].
    pose proof (proj2 (stripped_edges _ Ht) body NEWLINE eq_refl) as Hsp.
    vm_compute in Hsp. discriminate.
Qed.

(** The pieces of [split_comma s] consist of characters of [s] other than
    the comma. *)
Lemma split_comma_pieces s :
  List.Forall
    (List.Forall (fun c => List.In c s /\ c <> COMMA))
    (split_comma s).
Proof.
  induction s as [|c s IH]; simpl; [repeat constructor|].
  assert (List.Forall
            (List.Forall (fun d => (c = d \/ List.In d s) /\ d <> COMMA))
            (split_comma s)) as IH'.
  { eapply List.Forall_impl; [|exact IH]. intros piece Hp.
    eapply List.Forall_impl; [|exact Hp]. intros d [Hd Hne]. auto. }
  destruct (N.eqb_spec c COMMA) as [-> | Hne].
  - constructor; [constructor | exact IH'].
  - destruct (split_comma s) as [|h t]; [repeat constructor; auto|].
    inversion IH' as [|? ? Hh Ht]; subst.
    constructor; [|exact Ht]. constructor; auto.
Qed.

Lemma parse_tables_in tables_env t :
  List.In t (parse_tables tables_env) ->
  t <> [] /\ strip t = t
  /\ exists piece, List.In piece (split_comma tables_env) /\ t = strip piece.
Proof.
  unfold parse_tables. intros H.
  apply List.in_map_iff in H as (piece & <- & Hin).
  apply List.filter_In in Hin as (Hin & Htruthy).
  split; [|split].
  - intros Hnil. rewrite Hnil in Htruthy. discriminate.
  - apply strip_idempotent.
  - eauto.
Qed.

(** A table list made of commas and white space only names no table. *)
Lemma parse_tables_blank tables_env :
  List.Forall (fun c => c = COMMA \/ isspace c = true) tables_env ->
  parse_tables tables_env = [].
Proof.
  intros Hblank. unfold parse_tables.
  assert (List.filter (fun t => truthy (strip t)) (split_comma tables_env) = [])
    as ->; [|reflexivity].
  pose proof (split_comma_pieces tables_env) as Hpieces.
  induction (split_comma tables_env) as [|piece pieces IH]; [reflexivity|].
  inversion Hpieces as [|? ? Hp Hps]; subst. cbn [List.filter].
  assert (strip piece = []) as ->.
  { unfold strip. rewrite lstrip_by_all; [reflexivity|].
    apply forallb_forall. intros c Hc.
    rewrite List.Forall_forall in Hp, Hblank.
    destruct (Hp c Hc) as [Hin Hne].
    destruct (Hblank c Hin) as [-> | Hsp]; [contradiction | exact Hsp]. }
  cbn [truthy]. apply IH, Hps.
Qed.

(** ** Names that are not identifiers *)

(** One turn of the loop of [main], by the answer of the catalog. *)
Lemma export_step_run g engine exported_files tbl w :
  let params := [(lit "schema", PG_SCHEMA g); (lit "tbl", tbl)] in
  let w1 := mk_world (files w) (trace w ++ [EvExecute CATALOG_SQL params]) (disk w) in
  export_step g engine exported_files tbl w
  = match db_scalar (server engine) CATALOG_SQL params with
    | DbFail => (Raise DatabaseError, w1)
    | DbOk count =>
        if or_0 count >? 0
        then (let* path := export_table_to_csv g engine tbl (OUTPUT_DIR g) in
              ret (exported_files ++ [path])) w1
        else (Ret exported_files,
              mk_world (files w)
                (trace w ++ [EvExecute CATALOG_SQL params;
                             EvPrint Stdout
                               (MsgWarnSkipped tbl (PG_DB g) (PG_SCHEMA g))]) (disk w))
    end.
Proof.
  intros params w1. unfold export_step. unfold bind at 1.
  rewrite table_exists_run. fold params. fold w1.
  destruct (db_scalar (server engine) CATALOG_SQL params) as [count|];
    [|reflexivity].
  destruct (or_0 count >? 0); cbn [negb]; [reflexivity|].
  unfold bind, print, emit, ret, w1. cbn [fst snd files trace].
  rewrite <- app_assoc. reflexivity.
Qed.

(** The configuration of [globals_example] with the table list of
    scenario D. *)
Definition globals_injection : Globals :=
  mk_globals (lit "localhost") 5432 (lit "shop") (lit "etl") (lit "secret")
    (lit "public") (lit "users; DROP TABLE x")
    (parse_tables (lit "users; DROP TABLE x")) (lit ",") (lit "MINIMAL")
    [NEWLINE] 2 (lit "/app/out") (lit "lake") (lit "raw//")
    (lit "us-east-1") (lit "20240101T000000Z").

(** C3, the claim as stated fails: for the table name of scenario D the
    run sends the catalog query with that name to the database, and when
    the catalog does not know the name the guard is never reached: the
    table is skipped with a warning and the run ends with status 2. *)
Lemma injection_name_reaches_catalog :
  TABLES globals_injection = [lit "users; DROP TABLE x"]
  /\ VALID_IDENT_match (lit "users; DROP TABLE x") = false
  /\ main globals_injection pg_no_tables aws_accepting world_empty
     = (Exit 2,
        mk_world ∅
          [EvMakedirs (lit "/app/out");
           EvExecute CATALOG_SQL
             [(lit "schema", lit "public");
              (lit "tbl", lit "users; DROP TABLE x")];
           EvPrint Stdout
             (MsgWarnSkipped (lit "users; DROP TABLE x") (lit "shop")
                (lit "public"));
           EvPrint Stderr MsgNoneExported] disk_ok).
Proof. vm_compute. repeat apply conj; reflexivity. Qed.

(** C3, amended: for a configured table name that is not an identifier,
    the one database call is the parameterized catalog query, which comes
    before the guard.  If the catalog reports the table absent the name is
    skipped with a warning and the guard is not reached; if it reports the
    table present, [safe_ident] raises [ValueError] naming the value
    before any SELECT is built; if the database fails, that error is
    raised.  In no case is a statement containing the name built or run,
    and no file is written. *)
Theorem export_step_invalid_name :
  forall (g : Globals) (engine : Engine) (tables_env : str)
         (exported_files : list str) (tbl : str) (w : World),
    List.In tbl (parse_tables tables_env) ->
    spec_identifier tbl = false ->
    let params := [(lit "schema", PG_SCHEMA g); (lit "tbl", tbl)] in
    let r := export_step g engine exported_files tbl w in
    files (snd r) = files w
    /\ match db_scalar (server engine) CATALOG_SQL params with
       | DbFail =>
           fst r = Raise DatabaseError
           /\ trace (snd r) = trace w ++ [EvExecute CATALOG_SQL params]
       | DbOk count =>
           if or_0 count >? 0
           then fst r = Raise (ValueError tbl)
                /\ trace (snd r) = trace w ++ [EvExecute CATALOG_SQL params]
           else fst r = Ret exported_files
                /\ trace (snd r)
                   = trace w
                     ++ [EvExecute CATALOG_SQL params;
                         EvPrint Stdout
                           (MsgWarnSkipped tbl (PG_DB g) (PG_SCHEMA g))]
       end.
Proof.
  intros g engine tables_env exported_files tbl w Hin Hspec params r.
  apply parse_tables_in in Hin as (_ & Hstrip & _).
  assert (VALID_IDENT_match tbl = false) as Hguard
    by (rewrite stripped_guard; assumption).
  subst r. rewrite export_step_run. fold params.
  destruct (db_scalar (server engine) CATALOG_SQL params) as [count|].
  - destruct (or_0 count >? 0).
    + unfold export_table_to_csv. unfold bind.
      rewrite (safe_ident_raises _ _ Hguard). split; [reflexivity|].
      split; reflexivity.
    + split; [reflexivity|]. split; reflexivity.
  - split; [reflexivity|]. split; reflexivity.
Qed.

Lemma export_step_invalid_name_witness :
  let r := export_step globals_injection
             (get_engine globals_injection pg_three_rows) []
             (lit "users; DROP TABLE x") world_empty in
  fst r = Raise (ValueError (lit "users; DROP TABLE x"))
  /\ trace (snd r)
     = [EvExecute CATALOG_SQL
          [(lit "schema", lit "public");
           (lit "tbl", lit "users; DROP TABLE x")]]
  /\ files (snd r) = ∅.
Proof.
  destruct (export_step_invalid_name globals_injection
              (get_engine globals_injection pg_three_rows)
              (lit "users; DROP TABLE x") []
              (lit "users; DROP TABLE x") world_empty)
    as (Hfiles & Hout & Htrace).
  - vm_compute. left. reflexivity.
  - vm_compute. reflexivity.
  - split; [exact Hout|]. split; [exact Htrace | exact Hfiles].
Defined.

(** ** The names a run passes on *)

(** What an event of a run under [g] can be: a catalog query binds a
    configured table name; a table is read, and its file extended, only
    for a configured name that passed the guard. *)
Definition event_of_run (g : Globals) (e : event) : Prop :=
  match e with
  | EvExecute sql params =>
      sql = CATALOG_SQL
      /\ exists t, List.In t (TABLES g)
                   /\ params = [(lit "schema", PG_SCHEMA g); (lit "tbl", t)]
  | EvReadSql query _ =>
      exists t, List.In t (TABLES g) /\ VALID_IDENT_match t = true
                /\ query = select_query (PG_SCHEMA g) t
  | EvToCsv path mode _ _ _ =>
      mode = ModeAppend
      /\ exists t, List.In t (TABLES g) /\ VALID_IDENT_match t = true
                   /\ path = path_join (OUTPUT_DIR g) (csv_filename g t)
  | EvPrint _ _ | EvMakedirs _ | EvUploadFile _ _ _ => True
  end.

Lemma emits_table_exists g engine t :
  List.In t (TABLES g) ->
  emits (event_of_run g) (table_exists g engine t).
Proof.
  intros Hin w. rewrite table_exists_run. eexists. split; [reflexivity|].
  constructor; [|constructor]. simpl. eauto.
Qed.

Lemma emits_read_sql Q engine query chunksize :
  Q (EvReadSql query chunksize) -> emits Q (read_sql engine query chunksize).
Proof.
  intros HQ. unfold read_sql. apply emits_seq; [apply emits_emit, HQ|].
  intros _. destruct (0 <? chunksize).
  - destruct (db_select (server engine) query); apply emits_pure.
  - destruct (db_fetch_unsized (server engine) query chunksize);
      apply emits_pure.
Qed.

Lemma keeps_files_read_sql engine query chunksize :
  keeps_files (read_sql engine query chunksize).
Proof.
  unfold read_sql. apply keeps_files_bind; [apply keeps_files_emit|].
  intros _. destruct (0 <? chunksize).
  - destruct (db_select (server engine) query); apply keeps_files_pure.
  - destruct (db_fetch_unsized (server engine) query chunksize);
      apply keeps_files_pure.
Qed.

(** Whatever comes of a [to_csv] call, it is one call, and the file at
    [path] either is as before or holds [old ++ added], where [old] is
    what the mode keeps of the file. *)
Lemma to_csv_cases chunk path mode fmt header w :
  let old := match mode with
             | ModeAppend => default [] (files w !! path)
             | ModeWrite => []
             end in
  exists o fs,
    to_csv chunk path mode fmt header w
    = (o, mk_world fs (trace w ++ [EvToCsv path mode fmt header chunk])
            (disk w))
    /\ (fs = files w \/ exists added, fs = <[path := old ++ added]> (files w)).
Proof.
  intros old. unfold to_csv. fold old.
  destruct (csv_reply (disk w) path mode fmt header chunk);
    try destruct (List.length (fmt_sep fmt) =? 1)%nat;
    eexists _, _; (split; [reflexivity|]);
    first [left; reflexivity | right; eexists; reflexivity].
Qed.

Lemma emits_to_csv Q chunk path mode fmt header :
  Q (EvToCsv path mode fmt header chunk) ->
  emits Q (to_csv chunk path mode fmt header).
Proof.
  intros HQ w.
  destruct (to_csv_cases chunk path mode fmt header w) as (o & fs & -> & _).
  exists [EvToCsv path mode fmt header chunk]. cbn [snd trace]. auto.
Qed.

Lemma emits_export_table_to_csv g engine t :
  List.In t (TABLES g) ->
  emits (event_of_run g) (export_table_to_csv g engine t (OUTPUT_DIR g)).
Proof.
  intros Hin. unfold export_table_to_csv.
  apply (emits_bind _ (fun a => a = t /\ VALID_IDENT_match t = true)).
  { apply emits_safe_ident. }
  { intros w a. apply safe_ident_returns. }
  intros table [-> Hvalid].
  apply (emits_bind _ (fun a => a = PG_SCHEMA g)).
  { apply emits_safe_ident. }
  { intros w a Ha. apply safe_ident_returns in Ha. apply Ha. }
  intros schema ->.
  apply emits_seq.
  { apply emits_read_sql. simpl. eauto. }
  intros chunks. apply emits_seq.
  { apply emits_for_in. intros [hw rc] chunk _. unfold export_chunk.
    apply emits_seq; [|intros _; apply emits_pure].
    apply emits_to_csv. simpl. eauto. }
  intros st. apply emits_seq; [apply emits_emit; exact I|].
  intros _. apply emits_pure.
Qed.

Lemma emits_export_step g engine exported_files t :
  List.In t (TABLES g) ->
  emits (event_of_run g) (export_step g engine exported_files t).
Proof.
  intros Hin. unfold export_step. apply emits_seq.
  { apply emits_table_exists, Hin. }
  intros found. destruct (negb found).
  - apply emits_seq; [apply emits_emit; exact I|]. intros _. apply emits_pure.
  - apply emits_seq; [apply emits_export_table_to_csv, Hin|].
    intros path. apply emits_pure.
Qed.

Lemma emits_upload_to_s3 g aws local_path bucket prefix :
  emits (event_of_run g) (upload_to_s3 g aws local_path bucket prefix).
Proof.
  unfold upload_to_s3. apply emits_seq; [apply emits_emit; exact I|].
  intros _.
  destruct (upload_file _ _ _ _);
    try (apply emits_seq; [apply emits_emit; exact I|]; intros _);
    apply emits_pure.
Qed.

Lemma emits_main g pg aws : emits (event_of_run g) (main g pg aws).
Proof.
  unfold main.
  apply emits_seq.
  { apply emits_when, emits_seq; [apply emits_emit; exact I|].
    intros _. apply emits_pure. }
  intros _. apply emits_seq.
  { apply emits_when, emits_seq; [apply emits_emit; exact I|].
    intros _. apply emits_pure. }
  intros _. apply emits_seq; [apply emits_ensure_output_dir; exact I|].
  intros _. apply emits_seq.
  { apply emits_for_in. intros acc t Hin. apply emits_export_step, Hin. }
  intros exported_files. apply emits_seq.
  { apply emits_when, emits_seq; [apply emits_emit; exact I|].
    intros _. apply emits_pure. }
  intros _. apply emits_seq.
  { apply emits_for_in. intros acc path _. unfold upload_step.
    apply emits_seq; [apply emits_upload_to_s3|]. intros _. apply emits_pure. }
  intros _. apply emits_emit. exact I.
Qed.

(** The run after the module has loaded. *)
Lemma run_loaded u py_int now env pg aws g w :
  load_globals u py_int now env = inr g ->
  run u py_int now env pg aws w
  = (fst (main g pg aws w),
     mk_world (files (snd (main g pg aws w)))
       (trace (snd (main g pg aws w)) ++ [EvPrint Stdout MsgDuration]) (disk (snd (main g pg aws w)))).
Proof.
  intros Hload. unfold run. rewrite Hload.
  destruct (main g pg aws w) as [o w']. reflexivity.
Qed.

(** C10: the table list is the comma-separated setting with every entry
    stripped and the entries that are empty after stripping dropped.
    Hence every configured name is non-empty, unchanged by stripping and
    free of white space at both ends; a setting made only of commas and
    white space gives the empty list and the run ends with
    [SystemExit(1)]; and every name a run binds in a catalog query, reads
    or exports is one of these stripped names. *)
Theorem tables_are_stripped :
  forall (unicode_upper : char -> str) (py_int : str -> option Z)
         (now : str) (env : gmap str str) (pg : Database) (aws : Aws)
         (w : World) (g : Globals),
    load_globals unicode_upper py_int now env = inr g ->
    let tables_env := getenv env "TABLES" [] in
    let r := run unicode_upper py_int now env pg aws w in
    TABLES g
    = List.map strip
        (List.filter (fun t => truthy (strip t)) (split_comma tables_env))
    /\ List.Forall
         (fun t => t <> [] /\ strip t = t
                   /\ (forall c rest, t = c :: rest -> isspace c = false)
                   /\ (forall body c, t = body ++ [c] -> isspace c = false))
         (TABLES g)
    /\ (List.Forall (fun c => c = COMMA \/ isspace c = true) tables_env ->
        TABLES g = [] /\ fst r = Exit 1 /\ exit_status (fst r) = 1)
    /\ exists evs, trace (snd r) = trace w ++ evs
                   /\ List.Forall (event_of_run g) evs.
Proof.
  intros u py_int now env pg aws w g Hload tables_env r.
  pose proof (load_globals_fields _ _ _ _ _ Hload)
    as (_ & _ & _ & _ & Htables & _).
  fold tables_env in Htables.
  split; [exact Htables|]. split; [|split].
  - apply List.Forall_forall. intros t Hin. rewrite Htables in Hin.
    apply parse_tables_in in Hin as (Hne & Hstrip & _).
    destruct (stripped_edges t Hstrip) as [Hhead Hlast]. auto.
  - intros Hblank. apply parse_tables_blank in Hblank.
    rewrite <- Htables in Hblank. split; [exact Hblank|].
    subst r. rewrite (run_loaded _ _ _ _ _ _ _ _ Hload).
    rewrite main_env_incomplete.
    + split; reflexivity.
    + unfold env_incomplete. rewrite Hblank.
      rewrite !orb_true_r. reflexivity.
  - subst r. rewrite (run_loaded _ _ _ _ _ _ _ _ Hload). cbn [snd trace].
    destruct (emits_main g pg aws w) as (evs & Htrace & Hall).
    exists (evs ++ [EvPrint Stdout MsgDuration]).
    rewrite Htrace, app_assoc. split; [reflexivity|].
    apply Forall_app. split; [exact Hall|]. constructor; [exact I|constructor].
Qed.

Lemma tables_are_stripped_witness :
  TABLES globals_injection = [lit "users; DROP TABLE x"]
  /\ List.Forall (fun t => t <> [] /\ strip t = t) (TABLES globals_injection).
Proof.
  assert (load_globals no_unicode_upper int_of_digits
            (lit "20240101T000000Z")
            (<[lit "TABLES" := lit " users; DROP TABLE x ,, "]> ∅)
          = inr (mk_globals (lit "localhost") 5432 [] [] [] (lit "public")
                   (lit " users; DROP TABLE x ,, ")
                   (TABLES globals_injection) (lit ",") (lit "MINIMAL")
                   [NEWLINE] 100000 (lit "/app/out") [] []
                   (lit "us-east-1") (lit "20240101T000000Z"))) as Hload
    by (vm_compute; reflexivity).
  destruct (tables_are_stripped _ _ _ _ pg_no_tables aws_accepting world_empty
              _ Hload) as (_ & Hall & _).
  split; [vm_compute; reflexivity|].
  eapply List.Forall_impl; [|exact Hall].
  intros t (Hne & Hstrip & _). auto.
Defined.

(** ** Appending to a file that exists *)

(** An export the disk takes extends the file at its path by the header
    and the rows, whatever the file held before. *)
Lemma export_table_to_csv_appends g engine table_name out_dir df w :
  VALID_IDENT_match table_name = true ->
  VALID_IDENT_match (PG_SCHEMA g) = true ->
  0 < CHUNKSIZE g ->
  db_select (server engine) (select_query (PG_SCHEMA g) table_name) = DbOk df ->
  List.length (CSV_SEP g) = 1%nat ->
  accepts_appends (disk w) (path_join out_dir (csv_filename g table_name)) ->
  let out_path := path_join out_dir (csv_filename g table_name) in
  exists evs,
    export_table_to_csv g engine table_name out_dir w
    = (Ret out_path,
       mk_world
         (<[out_path := default [] (files w !! out_path) ++ export_lines g df]>
            (files w))
         (trace w ++ evs) (disk w)).
Proof.
  intros Ht Hs Hc Hdb Hsep Hdisk out_path.
  rewrite (export_table_to_csv_run _ _ _ _ _ _ Ht Hs Hc Hdb Hsep Hdisk).
  fold out_path. eexists. reflexivity.
Qed.

(** C9: every [to_csv] call of a run is made in append mode, and an
    export the disk takes (the separator being one character) extends
    whatever its output file already holds.  So when the same existing
    table is configured twice and the output directory can be made, the
    second export of the run goes after the first in the same file, which
    then holds the previous content followed by header and rows twice:
    two more header lines. *)
Theorem duplicate_table_appends_second_header :
  forall (g : Globals) (pg : Database) (aws : Aws) (t : str) (count : Z)
         (df : DataFrame) (w : World),
    truthy (PG_DB g) = true ->
    truthy (PG_USER g) = true ->
    truthy (PG_PASSWORD g) = true ->
    truthy (S3_BUCKET g) = true ->
    TABLES g = [t; t] ->
    db_scalar pg CATALOG_SQL [(lit "schema", PG_SCHEMA g); (lit "tbl", t)]
      = DbOk (Some count) ->
    0 < count ->
    VALID_IDENT_match t = true ->
    VALID_IDENT_match (PG_SCHEMA g) = true ->
    0 < CHUNKSIZE g ->
    db_select pg (select_query (PG_SCHEMA g) t) = DbOk df ->
    can_make_dir w (OUTPUT_DIR g) ->
    List.length (CSV_SEP g) = 1%nat ->
    accepts_appends (disk w) (path_join (OUTPUT_DIR g) (csv_filename g t)) ->
    let out_path := path_join (OUTPUT_DIR g) (csv_filename g t) in
    let old := default [] (files w !! out_path) in
    let once := export_table_to_csv g (get_engine g pg) t (OUTPUT_DIR g) w in
    let r := main g pg aws w in
    files (snd once) !! out_path = Some (old ++ export_lines g df)
    /\ files (snd r) !! out_path
       = Some (old ++ export_lines g df ++ export_lines g df)
    /\ header_count (old ++ export_lines g df ++ export_lines g df)
       = (header_count old + 2)%nat
    /\ exists evs,
         trace (snd r) = trace w ++ evs
         /\ List.Forall
              (fun e => forall path mode fmt header chunk,
                   e = EvToCsv path mode fmt header chunk -> mode = ModeAppend)
              evs.
Proof.
  intros g pg aws t count df w Hdb Huser Hpw Hbucket Htables Hcount Hpos
    Ht Hs Hc Hsel Hdir Hsep Hdisk out_path old once r.
  assert ((or_0 (Some count) >? 0) = true) as Hfound.
  { unfold or_0. destruct (Z.eqb_spec count 0); [lia|].
    rewrite Z.gtb_ltb. apply Z.ltb_lt. exact Hpos. }
  assert (forall acc fs0 tr0,
             exists evs,
               export_step g (get_engine g pg) acc t (mk_world fs0 tr0 (disk w))
               = (Ret (acc ++ [out_path]),
                  mk_world
                    (<[out_path := default [] (fs0 !! out_path)
                                   ++ export_lines g df]> fs0)
                    (tr0 ++ evs) (disk w))) as Hstep.
  { intros acc fs0 tr0. rewrite export_step_run. cbn [server get_engine].
    rewrite Hcount, Hfound. cbn [files trace disk].
    destruct (export_table_to_csv_appends g (get_engine g pg) t (OUTPUT_DIR g)
                df (mk_world fs0
                      (tr0
                       ++ [EvExecute CATALOG_SQL
                             [(lit "schema", PG_SCHEMA g); (lit "tbl", t)]])
                      (disk w))
                Ht Hs Hc Hsel Hsep Hdisk) as (evs & Hexp).
    fold out_path in Hexp. cbn [files trace] in Hexp.
    eexists. rewrite (bind_ret _ _ _ _ _ Hexp). unfold ret.
    rewrite <- app_assoc. reflexivity. }
  split; [|split; [|split]].
  - subst once.
    destruct (export_table_to_csv_appends g (get_engine g pg) t (OUTPUT_DIR g)
                df w Ht Hs Hc Hsel Hsep Hdisk) as (evs & Hexp).
    rewrite Hexp. cbn [snd files]. apply lookup_insert_eq.
  - subst r. rewrite main_config_ok;
      [| apply env_incomplete_false; rewrite Htables; repeat split; auto;
         discriminate | exact Hbucket | exact Hdir].
    unfold main_checked. rewrite Htables.
    set (w1 := mk_world (files w) (trace w ++ [EvMakedirs (OUTPUT_DIR g)]) (disk w)).
    assert (exists fs evs,
               for_in (export_step g (get_engine g pg)) [t; t] [] w1
               = (Ret [out_path; out_path], mk_world fs (trace w1 ++ evs) (disk w))
               /\ fs !! out_path
                  = Some (old ++ export_lines g df ++ export_lines g df))
      as (fs & evs & Hloop & Hfs).
    { cbn [for_in]. destruct (Hstep [] (files w1) (trace w1)) as (evs1 & Hstep1).
      fold w1 in Hstep1.
      rewrite (bind_ret _ _ _ _ _ Hstep1). cbn [for_in].
      match goal with
      | |- context [bind (export_step _ _ ?acc t) _ (mk_world ?fs0 ?tr0 _)] =>
          destruct (Hstep acc fs0 tr0) as (evs2 & Hstep2)
      end.
      rewrite (bind_ret _ _ _ _ _ Hstep2). unfold ret. cbn [files trace].
      eexists _, (evs1 ++ evs2). rewrite app_assoc.
      split; [reflexivity|].
      rewrite lookup_insert_eq, lookup_insert_eq.
      cbn [default w1 files]. unfold id. fold old.
      rewrite <- app_assoc. reflexivity. }
    rewrite (bind_ret _ _ _ _ _ Hloop). cbn [when_].
    rewrite (bind_ret _ _ _ tt _ eq_refl).
    rewrite keeps_files_bind.
    + exact Hfs.
    + apply keeps_files_for_in. intros acc path.
      apply keeps_files_upload_step.
    + intros _. apply keeps_files_emit.
  - rewrite !header_count_app. unfold export_lines.
    rewrite header_count_fresh_file. lia.
  - destruct (emits_main g pg aws w) as (evs & Htrace & Hall).
    exists evs. split; [exact Htrace|].
    eapply List.Forall_impl; [|exact Hall].
    intros e He path mode fmt header chunk ->. simpl in He. apply He.
Qed.

Definition globals_duplicate : Globals :=
  mk_globals (lit "localhost") 5432 (lit "shop") (lit "etl") (lit "secret")
    (lit "public") (lit "users,users") (parse_tables (lit "users,users"))
    (lit ",") (lit "MINIMAL") [NEWLINE] 2 (lit "/app/out") (lit "lake")
    (lit "raw//") (lit "us-east-1") (lit "20240101T000000Z").

Lemma duplicate_table_appends_second_header_witness :
  header_count
    (default []
       (files (snd (main globals_duplicate pg_three_rows aws_accepting
                      world_empty))
        !! lit "/app/out/users_20240101T000000Z.csv"))
  = 2%nat.
Proof.
  destruct (duplicate_table_appends_second_header globals_duplicate
              pg_three_rows aws_accepting (lit "users") 1 frame_three_rows
              world_empty eq_refl eq_refl eq_refl eq_refl eq_refl eq_refl
              eq_refl eq_refl eq_refl eq_refl eq_refl)
    as (_ & Hfile & Hcount & _).
  - split; [discriminate | split; vm_compute; reflexivity].
  - reflexivity.
  - intros fmt header chunk. reflexivity.
  - change (path_join (OUTPUT_DIR globals_duplicate)
              (csv_filename globals_duplicate (lit "users")))
      with (lit "/app/out/users_20240101T000000Z.csv") in Hfile.
    rewrite Hfile. cbn [default]. exact Hcount.
Defined.


(** * Further properties of the module *)

(** ** The guard, exactly *)

(** X1: [safe_ident] never changes the world and has two outcomes only.
    It returns its argument unchanged exactly when the argument is a
    non-empty run of ASCII letters, digits and underscores, optionally
    followed by one final newline; on every other string it raises
    [ValueError] carrying that string. *)
Theorem safe_ident_characterised :
  forall (name : str) (w : World),
    (safe_ident name w = (Ret name, w)
     /\ exists body, spec_identifier body = true
                     /\ (name = body \/ name = body ++ [NEWLINE]))
    \/ (safe_ident name w = (Raise (ValueError name), w)
        /\ forall body, spec_identifier body = true ->
                        name <> body /\ name <> body ++ [NEWLINE]).
Proof.
  intros name w. destruct (VALID_IDENT_match name) eqn:Hm.
  - left. split; [apply safe_ident_ok, Hm|].
    apply VALID_IDENT_match_spec, Hm.
  - right. split; [apply safe_ident_raises, Hm|].
    intros body Hb. split; intros ->.
    + rewrite (spec_identifier_match _ Hb) in Hm. discriminate.
    + assert (VALID_IDENT_match (body ++ [NEWLINE]) = true) as Ht
        by (apply VALID_IDENT_match_spec; exists body; auto).
      congruence.
Qed.

(** The characters of a name that passes the guard. *)
Lemma guarded_chars name :
  VALID_IDENT_match name = true ->
  name <> []
  /\ forall c, List.In c name -> is_ident_char c = true \/ c = NEWLINE.
Proof.
  intros Hm. apply VALID_IDENT_match_spec in Hm as (body & Hb & Hname).
  unfold spec_identifier in Hb. apply andb_true_iff in Hb as [Hne Hall].
  rewrite forallb_forall in Hall.
  destruct Hname as [-> | ->].
  - split; [destruct body; [discriminate | discriminate]|].
    intros c Hc. left. apply Hall, Hc.
  - split; [destruct body; discriminate|].
    intros c Hc. apply List.in_app_or in Hc as [Hc | [<- | []]].
    + left. apply Hall, Hc.
    + right. reflexivity.
Qed.

Lemma guarded_lacks name c :
  VALID_IDENT_match name = true ->
  is_ident_char c = false -> c <> NEWLINE -> ~ List.In c name.
Proof.
  intros Hm Hc Hnl Hin.
  destruct (proj2 (guarded_chars name Hm) c Hin); congruence.
Qed.

(** X2: a name that passes the guard holds no double quote, no slash, no
    semicolon and no space, so the statement [export_table_to_csv] builds
    from a guarded schema and table has exactly the four double quotes
    that delimit the two identifiers. *)
Theorem select_query_quotes_intact :
  forall (schema table : str),
    VALID_IDENT_match schema = true ->
    VALID_IDENT_match table = true ->
    (forall name, name = schema \/ name = table ->
                  ~ List.In DQUOTE name /\ ~ List.In SLASH name
                  /\ ~ List.In 59%N name /\ ~ List.In 32%N name)
    /\ List.count_occ N.eq_dec (select_query schema table) DQUOTE = 4%nat.
Proof.
  intros schema table Hs Ht.
  assert (forall name, VALID_IDENT_match name = true ->
                       ~ List.In DQUOTE name /\ ~ List.In SLASH name
                       /\ ~ List.In 59%N name /\ ~ List.In 32%N name) as Hlack.
  { intros name Hm.
    repeat apply conj; apply guarded_lacks; try exact Hm;
      try (vm_compute; reflexivity); discriminate. }
  split.
  - intros name [-> | ->]; apply Hlack; assumption.
  - unfold select_query. rewrite !List.count_occ_app.
    rewrite (proj1 (List.count_occ_not_In N.eq_dec schema DQUOTE)
               (proj1 (Hlack schema Hs))).
    rewrite (proj1 (List.count_occ_not_In N.eq_dec table DQUOTE)
               (proj1 (Hlack table Ht))).
    vm_compute. reflexivity.
Qed.

Lemma select_query_quotes_intact_witness :
  List.count_occ N.eq_dec (select_query (lit "public") (lit "users")) DQUOTE
  = 4%nat.
Proof.
  exact (proj2 (select_query_quotes_intact (lit "public") (lit "users")
                  eq_refl eq_refl)).
Defined.

(** X3: [export_table_to_csv] checks both names before anything else.
    When the table name fails the guard it raises [ValueError] for the
    table name; when the table name passes and the schema fails, for the
    schema.  In both cases the world is untouched: no query, no file, no
    message. *)
Theorem export_rejects_unguarded_names :
  forall (g : Globals) (engine : Engine) (table_name out_dir : str)
         (w : World),
    VALID_IDENT_match table_name = false
    \/ VALID_IDENT_match (PG_SCHEMA g) = false ->
    export_table_to_csv g engine table_name out_dir w
    = (Raise (ValueError (if VALID_IDENT_match table_name
                          then PG_SCHEMA g else table_name)), w).
Proof.
  intros g engine table_name out_dir w Hbad. unfold export_table_to_csv.
  destruct (VALID_IDENT_match table_name) eqn:Ht.
  - destruct Hbad as [Hbad | Hs]; [discriminate|].
    rewrite (bind_ret _ _ _ _ _ (safe_ident_ok _ _ Ht)).
    apply bind_raise, safe_ident_raises, Hs.
  - apply bind_raise, safe_ident_raises, Ht.
Qed.

Definition globals_bad_schema : Globals :=
  mk_globals (lit "localhost") 5432 (lit "shop") (lit "etl") (lit "secret")
    (lit "my schema") (lit "users") [lit "users"] (lit ",") (lit "MINIMAL")
    [NEWLINE] 2 (lit "/app/out") (lit "lake") (lit "raw//")
    (lit "us-east-1") (lit "20240101T000000Z").

Lemma export_rejects_unguarded_names_witness :
  export_table_to_csv globals_bad_schema
    (get_engine globals_bad_schema pg_three_rows) (lit "users")
    (lit "/app/out") world_empty
  = (Raise (ValueError (lit "my schema")), world_empty).
Proof.
  exact (export_rejects_unguarded_names globals_bad_schema
           (get_engine globals_bad_schema pg_three_rows) (lit "users")
           (lit "/app/out") world_empty (or_intror eq_refl)).
Defined.

(** ** Output paths and object keys *)

Lemma guarded_head name :
  VALID_IDENT_match name = true ->
  exists c rest, name = c :: rest /\ is_ident_char c = true.
Proof.
  intros Hm. apply VALID_IDENT_match_spec in Hm as (body & Hb & Hname).
  unfold spec_identifier in Hb. apply andb_true_iff in Hb as [Hne Hall].
  destruct body as [|c body]; [discriminate|].
  simpl in Hall. apply andb_true_iff in Hall as [Hc _].
  destruct Hname as [-> | ->]; simpl; eauto.
Qed.

Lemma csv_filename_no_leading_slash g table :
  VALID_IDENT_match table = true ->
  startswith_slash (csv_filename g table) = false.
Proof.
  intros Hm. destruct (guarded_head table Hm) as (c & rest & -> & Hc).
  simpl. destruct (N.eqb_spec c SLASH) as [-> | _]; [|reflexivity].
  vm_compute in Hc. discriminate.
Qed.

(** What [path_join] puts between a directory and a relative name. *)
Definition join_separator (a : str) : str :=
  if negb (truthy a) || endswith_slash a then [] else [SLASH].

Lemma path_join_relative a b :
  startswith_slash b = false -> path_join a b = a ++ join_separator a ++ b.
Proof.
  intros Hb. unfold path_join, join_separator. rewrite Hb.
  destruct (negb (truthy a) || endswith_slash a); reflexivity.
Qed.

Lemma csv_filename_inj g t1 t2 :
  csv_filename g t1 = csv_filename g t2 -> t1 = t2.
Proof. unfold csv_filename. apply List.app_inv_tail. Qed.

(** X4: two different table names that pass the guard are exported to two
    different files of the same output directory, so one table's export
    never lands in the file of another. *)
Theorem distinct_tables_distinct_files :
  forall (g : Globals) (out_dir t1 t2 : str),
    VALID_IDENT_match t1 = true ->
    VALID_IDENT_match t2 = true ->
    t1 <> t2 ->
    path_join out_dir (csv_filename g t1)
    <> path_join out_dir (csv_filename g t2).
Proof.
  intros g out_dir t1 t2 H1 H2 Hne Heq.
  rewrite !path_join_relative in Heq
    by (apply csv_filename_no_leading_slash; assumption).
  apply List.app_inv_head in Heq. apply List.app_inv_head in Heq.
  apply csv_filename_inj in Heq. contradiction.
Qed.

Lemma distinct_tables_distinct_files_witness :
  path_join (lit "/app/out") (csv_filename globals_example (lit "users"))
  <> path_join (lit "/app/out") (csv_filename globals_example (lit "orders")).
Proof.
  apply (distinct_tables_distinct_files globals_example (lit "/app/out")
           (lit "users") (lit "orders") eq_refl eq_refl).
  discriminate.
Defined.

Lemma basename_no_slash b : ~ List.In SLASH b -> basename b = b.
Proof.
  intros Hb. destruct b as [|c b]; [reflexivity|].
  simpl. assert (existsb (N.eqb SLASH) b = false) as ->.
  { apply existsb_slash_false. intros Hin. apply Hb. right. exact Hin. }
  destruct (N.eqb_spec c SLASH) as [-> | _]; [|reflexivity].
  exfalso. apply Hb. left. reflexivity.
Qed.

Lemma basename_after_slash a b :
  ~ List.In SLASH b -> basename (a ++ [SLASH] ++ b) = b.
Proof.
  intros Hb. induction a as [|c a IH].
  - simpl. apply existsb_slash_false in Hb. rewrite Hb. reflexivity.
  - change ((c :: a) ++ [SLASH] ++ b) with (c :: (a ++ [SLASH] ++ b)).
    cbn [basename].
    assert (existsb (N.eqb SLASH) (a ++ [SLASH] ++ b) = true) as ->.
    { apply existsb_exists. exists SLASH. split; [|apply N.eqb_refl].
      apply List.in_or_app. right. left. reflexivity. }
    exact IH.
Qed.

Lemma endswith_slash_true a :
  endswith_slash a = true -> exists a', a = a' ++ [SLASH].
Proof.
  unfold endswith_slash. intros H.
  destruct (List.rev a) as [|c r] eqn:Hr; [discriminate|].
  apply N.eqb_eq in H. subst c. exists (List.rev r).
  rewrite <- (List.rev_involutive a), Hr. reflexivity.
Qed.

Lemma csv_filename_no_slash g table :
  VALID_IDENT_match table = true ->
  ~ List.In SLASH (TIMESTAMP g) ->
  ~ List.In SLASH (csv_filename g table).
Proof.
  intros Hm Hts Hin. unfold csv_filename in Hin.
  apply List.in_app_or in Hin as [Hin | Hin].
  - revert Hin. apply guarded_lacks; [exact Hm | reflexivity | discriminate].
  - apply List.in_app_or in Hin as [Hin | Hin].
    { vm_compute in Hin. destruct Hin as [Hin | Hin]; [discriminate | exact Hin]. }
    apply List.in_app_or in Hin as [Hin | Hin]; [exact (Hts Hin)|].
    vm_compute in Hin.
    repeat (destruct Hin as [Hin | Hin]; [discriminate|]). exact Hin.
Qed.

(** X5: the base name of the path an export returns is the file name
    [{table}_{TIMESTAMP}.csv], whatever the output directory, so the key
    [upload_to_s3] derives from that path is this file name, after the
    configured prefix and one slash when the prefix is not empty. *)
Theorem export_path_upload_key :
  forall (g : Globals) (out_dir table : str) (prefix : option str),
    VALID_IDENT_match table = true ->
    ~ List.In SLASH (TIMESTAMP g) ->
    let out_path := path_join out_dir (csv_filename g table) in
    basename out_path = csv_filename g table
    /\ upload_key out_path prefix
       = match prefix with
         | Some (c :: p) =>
             rstrip_slash (c :: p) ++ [SLASH] ++ csv_filename g table
         | Some [] | None => csv_filename g table
         end.
Proof.
  intros g out_dir table prefix Hm Hts out_path.
  pose proof (csv_filename_no_slash g table Hm Hts) as Hno.
  assert (basename out_path = csv_filename g table) as Hbase.
  { unfold out_path.
    rewrite path_join_relative by (apply csv_filename_no_leading_slash, Hm).
    unfold join_separator.
    destruct (truthy out_dir) eqn:Htr; cbn [negb orb].
    - destruct (endswith_slash out_dir) eqn:Hend.
      + apply endswith_slash_true in Hend as (a' & ->).
        rewrite <- app_assoc. apply basename_after_slash, Hno.
      + apply basename_after_slash, Hno.
    - destruct out_dir; [|discriminate]. apply basename_no_slash, Hno. }
  split; [exact Hbase|].
  unfold upload_key. rewrite Hbase. destruct prefix as [[|c p]|]; reflexivity.
Qed.

Lemma export_path_upload_key_witness :
  upload_key
    (path_join (lit "/app/out/") (csv_filename globals_example (lit "users")))
    (Some (lit "raw//"))
  = lit "raw/users_20240101T000000Z.csv".
Proof.
  refine (eq_trans
            (proj2 (export_path_upload_key globals_example (lit "/app/out/")
                      (lit "users") (Some (lit "raw//")) eq_refl _)) _).
  - vm_compute. intuition discriminate.
  - vm_compute. reflexivity.
Defined.

(** X6: the key under which a file is uploaded always keeps the base name
    of the local file: taking the base name of the key gives the base name
    of the local path, with or without a prefix, whatever slashes the
    prefix holds. *)
Theorem upload_key_keeps_basename :
  forall (local_path : str) (prefix : option str),
    basename (upload_key local_path prefix) = basename local_path.
Proof.
  intros local_path prefix.
  pose proof (proj1 (basename_spec local_path)) as Hno.
  unfold upload_key. destruct prefix as [p|].
  - destruct (truthy p).
    + apply basename_after_slash, Hno.
    + apply basename_no_slash, Hno.
  - apply basename_no_slash, Hno.
Qed.

(** ** What a run does to the local files *)

(** [changes_by R m]: the files before and after [m] are related by [R]. *)
Definition changes_by {A : Type}
    (R : gmap str (list csv_line) -> gmap str (list csv_line) -> Prop)
    (m : M A) : Prop :=
  forall w, R (files w) (files (snd (m w))).

Section Changes.
Variable R : gmap str (list csv_line) -> gmap str (list csv_line) -> Prop.
Hypothesis R_refl : forall fs, R fs fs.
Hypothesis R_trans : forall a b c, R a b -> R b c -> R a c.

Lemma changes_by_kept {A : Type} (m : M A) : keeps_files m -> changes_by R m.
Proof. intros Hm w. rewrite Hm. apply R_refl. Qed.

Lemma changes_by_bind {A B : Type} (P : A -> Prop) (m : M A) (k : A -> M B) :
  changes_by R m ->
  (forall w a, fst (m w) = Ret a -> P a) ->
  (forall a, P a -> changes_by R (k a)) ->
  changes_by R (bind m k).
Proof.
  intros Hm HP Hk w. unfold bind. specialize (Hm w). specialize (HP w).
  destruct (m w) as [[a | e | c] w1]; simpl in *; [|exact Hm..].
  eapply R_trans; [exact Hm|]. apply Hk, HP. reflexivity.
Qed.

Lemma changes_by_seq {A B : Type} (m : M A) (k : A -> M B) :
  changes_by R m -> (forall a, changes_by R (k a)) -> changes_by R (bind m k).
Proof. intros Hm Hk. apply (changes_by_bind (fun _ => True)); auto. Qed.

Lemma changes_by_for_in {A S : Type} (body : S -> A -> M S) xs :
  (forall acc x, List.In x xs -> changes_by R (body acc x)) ->
  forall acc, changes_by R (for_in body xs acc).
Proof.
  induction xs as [|x xs IH]; intros Hbody acc; cbn [for_in].
  - apply changes_by_kept, keeps_files_pure.
  - apply changes_by_seq.
    + apply Hbody. left. reflexivity.
    + intros acc'. apply IH. intros acc'' y Hy. apply Hbody. right. exact Hy.
Qed.

Lemma changes_by_export g engine table_name out_dir :
  (VALID_IDENT_match table_name = true ->
   forall chunk fmt header,
     changes_by R
       (to_csv chunk (path_join out_dir (csv_filename g table_name))
          ModeAppend fmt header)) ->
  changes_by R (export_table_to_csv g engine table_name out_dir).
Proof.
  intros Hcsv. unfold export_table_to_csv.
  apply (changes_by_bind
           (fun a => a = table_name /\ VALID_IDENT_match table_name = true)).
  { apply changes_by_kept. intros w.
    destruct (safe_ident_cases table_name) as [-> | ->]; reflexivity. }
  { intros w a. apply safe_ident_returns. }
  intros table [-> Hvalid]. apply changes_by_seq.
  { apply changes_by_kept. intros w.
    destruct (safe_ident_cases (PG_SCHEMA g)) as [-> | ->]; reflexivity. }
  intros schema. apply changes_by_seq.
  { apply changes_by_kept, keeps_files_read_sql. }
  intros chunks. apply changes_by_seq.
  { apply changes_by_for_in. intros [hw rc] chunk _. unfold export_chunk.
    apply changes_by_seq; [apply Hcsv, Hvalid|].
    intros _. apply changes_by_kept, keeps_files_pure. }
  intros st. apply changes_by_kept. apply keeps_files_bind.
  - apply keeps_files_emit.
  - intros _. apply keeps_files_pure.
Qed.

Lemma changes_by_main g pg aws :
  (forall t, List.In t (TABLES g) -> VALID_IDENT_match t = true ->
             forall chunk fmt header,
               changes_by R
                 (to_csv chunk (path_join (OUTPUT_DIR g) (csv_filename g t))
                    ModeAppend fmt header)) ->
  changes_by R (main g pg aws).
Proof.
  intros Hcsv. unfold main.
  apply changes_by_seq.
  { apply changes_by_kept, keeps_files_when, keeps_files_bind;
      [apply keeps_files_emit | intros _; apply keeps_files_pure]. }
  intros _. apply changes_by_seq.
  { apply changes_by_kept, keeps_files_when, keeps_files_bind;
      [apply keeps_files_emit | intros _; apply keeps_files_pure]. }
  intros _. apply changes_by_seq;
    [apply changes_by_kept, keeps_files_ensure_output_dir|].
  intros _. apply changes_by_seq.
  { apply changes_by_for_in. intros acc t Hin. unfold export_step.
    apply changes_by_seq.
    { apply changes_by_kept. intros w. rewrite table_exists_run. reflexivity. }
    intros found. destruct (negb found).
    - apply changes_by_kept, keeps_files_bind;
        [apply keeps_files_emit | intros _; apply keeps_files_pure].
    - apply changes_by_seq.
      + apply changes_by_export. intros Hvalid. apply Hcsv; assumption.
      + intros path. apply changes_by_kept, keeps_files_pure. }
  intros exported_files. apply changes_by_kept.
  apply keeps_files_bind.
  { apply keeps_files_when, keeps_files_bind;
      [apply keeps_files_emit | intros _; apply keeps_files_pure]. }
  intros _. apply keeps_files_bind.
  { apply keeps_files_for_in. intros acc path. apply keeps_files_upload_step. }
  intros _. apply keeps_files_emit.
Qed.
End Changes.

(** X7: a run of [main] leaves every local file alone except the export
    files of the configured tables: a path that is not
    [OUTPUT_DIR/{table}_{TIMESTAMP}.csv] for a configured table holds after
    the run what it held before, whatever the database and S3 answer and
    however the run ends. *)
Theorem main_touches_only_export_files :
  forall (g : Globals) (pg : Database) (aws : Aws) (w : World) (p : str),
    (forall t, List.In t (TABLES g) ->
               p <> path_join (OUTPUT_DIR g) (csv_filename g t)) ->
    files (snd (main g pg aws w)) !! p = files w !! p.
Proof.
  intros g pg aws w p Hp.
  apply (changes_by_main (fun fs fs' => fs' !! p = fs !! p)).
  - reflexivity.
  - intros a b c Hab Hbc. congruence.
  - intros t Hin _ chunk fmt header w0.
    destruct (to_csv_cases chunk (path_join (OUTPUT_DIR g) (csv_filename g t))
                ModeAppend fmt header w0)
      as (o & fs & -> & [-> | (added & ->)]); cbn [snd files];
      [reflexivity|].
    apply lookup_insert_ne. intros Heq. exact (Hp t Hin (eq_sym Heq)).
Qed.

Lemma main_touches_only_export_files_witness :
  files (snd (main globals_example pg_three_rows aws_accepting
                (mk_world (<[lit "/app/out/notes.txt" := []]> ∅) [] disk_ok)))
  !! lit "/app/out/notes.txt"
  = Some [].
Proof.
  rewrite (main_touches_only_export_files globals_example pg_three_rows
             aws_accepting
             (mk_world (<[lit "/app/out/notes.txt" := []]> ∅) [] disk_ok)
             (lit "/app/out/notes.txt")).
  - vm_compute. reflexivity.
  - intros t [<- | []]. vm_compute. discriminate.
Defined.

(** X8: a run of [main] only ever appends: a file that exists before the
    run still exists after it, and its earlier content is a prefix of its
    later content.  Nothing is truncated, replaced or removed, whatever
    the outcome of the run. *)
Theorem main_only_appends :
  forall (g : Globals) (pg : Database) (aws : Aws) (w : World)
         (p : str) (old : list csv_line),
    files w !! p = Some old ->
    exists added, files (snd (main g pg aws w)) !! p = Some (old ++ added).
Proof.
  intros g pg aws w p old Hold.
  assert (changes_by
            (fun fs fs' => forall p old, fs !! p = Some old ->
                                         exists added,
                                           fs' !! p = Some (old ++ added))
            (main g pg aws)) as Hmain.
  { apply changes_by_main.
    - intros fs q o Hq. exists []. rewrite app_nil_r. exact Hq.
    - intros a b c Hab Hbc q o Hq.
      destruct (Hab q o Hq) as (add1 & H1).
      destruct (Hbc q _ H1) as (add2 & H2).
      exists (add1 ++ add2). rewrite app_assoc. exact H2.
    - intros t _ _ chunk fmt header w0 q o Hq.
      destruct (to_csv_cases chunk
                  (path_join (OUTPUT_DIR g) (csv_filename g t))
                  ModeAppend fmt header w0)
        as (out & fs & -> & [-> | (added & ->)]); cbn [snd files].
      { exists []. rewrite app_nil_r. exact Hq. }
      destruct (decide (path_join (OUTPUT_DIR g) (csv_filename g t) = q))
        as [<- | Hne].
      + rewrite lookup_insert_eq, Hq. cbn [default]. eauto.
      + rewrite lookup_insert_ne by exact Hne. exists [].
        rewrite app_nil_r. exact Hq. }
  exact (Hmain w p old Hold).
Qed.

Lemma main_only_appends_witness :
  exists added,
    files (snd (main globals_example pg_three_rows aws_accepting
                  (mk_world
                     (<[lit "/app/out/users_20240101T000000Z.csv"
                        := [DataLine (run_format globals_example) [lit "0"]]]>
                        ∅) [] disk_ok)))
    !! lit "/app/out/users_20240101T000000Z.csv"
    = Some ([DataLine (run_format globals_example) [lit "0"]] ++ added).
Proof.
  apply (main_only_appends globals_example pg_three_rows aws_accepting).
  vm_compute. reflexivity.
Defined.

(** ** The calls an export makes *)

Lemma append_events_after_header path fmt chunks :
  append_events path fmt true chunks
  = List.map (EvToCsv path ModeAppend fmt false) chunks.
Proof.
  induction chunks as [|c cs IH]; simpl; [reflexivity|]. rewrite IH.
  reflexivity.
Qed.

Lemma frames_of_shape df c :
  0 < c ->
  rows df <> [] ->
  List.Forall
    (fun f => columns f = columns df
              /\ (1 <= List.length (rows f) <= Z.to_nat c)%nat)
    (frames_of df c).
Proof.
  intros Hc Hrows. unfold frames_of, chunks_of.
  destruct (rows df) as [|r0 rs0] eqn:Hdf; [contradiction|]. rewrite <- Hdf.
  apply List.Forall_forall.
  intros f Hf. apply List.in_map_iff in Hf as (chunk & <- & Hin).
  split; [reflexivity|]. cbn [rows].
  pose proof (chunks_fuel_sizes (List.length (rows df)) (Z.to_nat c) (rows df)
                ltac:(lia)) as Hsizes.
  rewrite List.Forall_forall in Hsizes. specialize (Hsizes chunk Hin). lia.
Qed.

(** X9: when a table with rows is exported with a separator of one
    character to a disk that takes the appends, the [to_csv] calls come
    between the read and the report, all on the output path in append mode
    with the format of the run; the first call is made with the header
    switched on and every later call with it switched off.  Each call
    writes a chunk of at least one and at most [CHUNKSIZE] rows with the
    columns of the table, and the chunks put end to end are the rows of
    the table in order. *)
Theorem export_header_on_first_append_only :
  forall (g : Globals) (engine : Engine) (table_name out_dir : str)
         (df : DataFrame) (w : World),
    VALID_IDENT_match table_name = true ->
    VALID_IDENT_match (PG_SCHEMA g) = true ->
    0 < CHUNKSIZE g ->
    db_select (server engine) (select_query (PG_SCHEMA g) table_name)
      = DbOk df ->
    rows df <> [] ->
    List.length (CSV_SEP g) = 1%nat ->
    accepts_appends (disk w) (path_join out_dir (csv_filename g table_name)) ->
    let out_path := path_join out_dir (csv_filename g table_name) in
    exists first rest,
      trace (snd (export_table_to_csv g engine table_name out_dir w))
      = trace w
        ++ [EvReadSql (select_query (PG_SCHEMA g) table_name) (CHUNKSIZE g)]
        ++ EvToCsv out_path ModeAppend (run_format g) true first
           :: List.map (EvToCsv out_path ModeAppend (run_format g) false) rest
        ++ [EvPrint Stdout
              (MsgOkExport table_name out_path (List.length (rows df)))]
      /\ List.concat (List.map rows (first :: rest)) = rows df
      /\ List.Forall
           (fun chunk =>
              columns chunk = columns df
              /\ (1 <= List.length (rows chunk)
                  <= Z.to_nat (CHUNKSIZE g))%nat)
           (first :: rest).
Proof.
  intros g engine table_name out_dir df w Ht Hs Hc Hdb Hrows Hsep Hdisk
    out_path.
  rewrite (export_table_to_csv_run _ _ _ _ _ _ Ht Hs Hc Hdb Hsep Hdisk).
  fold out_path. cbn [snd trace].
  pose proof (frames_of_rows df _ Hc) as Hcat.
  pose proof (frames_of_shape df _ Hc Hrows) as Hshape.
  destruct (frames_of df (CHUNKSIZE g)) as [|first rest].
  - simpl in Hcat. congruence.
  - exists first, rest. cbn [append_events negb].
    rewrite append_events_after_header. auto.
Qed.

Lemma export_header_on_first_append_only_witness :
  exists first rest,
    trace (snd (export_table_to_csv globals_example
                  (get_engine globals_example pg_three_rows)
                  (lit "users") (lit "/app/out") world_empty))
    = [EvReadSql (select_query (lit "public") (lit "users")) 2]
      ++ EvToCsv (lit "/app/out/users_20240101T000000Z.csv") ModeAppend
           (run_format globals_example) true first
         :: List.map
              (EvToCsv (lit "/app/out/users_20240101T000000Z.csv") ModeAppend
                 (run_format globals_example) false) rest
      ++ [EvPrint Stdout
            (MsgOkExport (lit "users")
               (lit "/app/out/users_20240101T000000Z.csv") 3)].
Proof.
  destruct (export_header_on_first_append_only globals_example
              (get_engine globals_example pg_three_rows)
              (lit "users") (lit "/app/out") frame_three_rows world_empty
              eq_refl eq_refl eq_refl eq_refl)
    as (first & rest & Htrace & _).
  - discriminate.
  - reflexivity.
  - intros fmt header chunk. reflexivity.
  - exists first, rest. exact Htrace.
Defined.

(** ** The table list *)

Lemma split_comma_nonempty s : split_comma s <> [].
Proof.
  destruct s as [|c s]; simpl; [discriminate|].
  destruct (c =? COMMA)%N; [discriminate|].
  destruct (split_comma s); discriminate.
Qed.

Lemma split_comma_app a b :
  split_comma (a ++ [COMMA] ++ b) = split_comma a ++ split_comma b.
Proof.
  induction a as [|c a IH]; [reflexivity|].
  change ((c :: a) ++ [COMMA] ++ b) with (c :: (a ++ [COMMA] ++ b)).
  cbn [split_comma]. rewrite IH.
  destruct (c =? COMMA)%N; [reflexivity|].
  pose proof (split_comma_nonempty a) as Hne.
  destruct (split_comma a) as [|h t]; [contradiction | reflexivity].
Qed.

Lemma split_comma_no_comma t :
  ~ List.In COMMA t -> split_comma t = [t].
Proof.
  induction t as [|c t IH]; intros Hno; [reflexivity|].
  cbn [split_comma].
  destruct (N.eqb_spec c COMMA) as [-> | _].
  - exfalso. apply Hno. left. reflexivity.
  - rewrite IH; [reflexivity|]. intros Hin. apply Hno. right. exact Hin.
Qed.

(** X10: the table list of two settings joined by a comma is the table
    list of the first followed by the table list of the second.  So names
    are taken in the order they are written, a repeated name is kept as
    often as it is written, and empty entries between commas leave no
    trace. *)
Theorem parse_tables_comma :
  forall (a b : str),
    parse_tables (a ++ [COMMA] ++ b) = parse_tables a ++ parse_tables b.
Proof.
  intros a b. unfold parse_tables.
  rewrite split_comma_app, List.filter_app, List.map_app. reflexivity.
Qed.

(** X11: a setting without a comma names one table, the setting stripped
    of surrounding white space, or none when nothing is left after
    stripping. *)
Theorem parse_tables_single :
  forall (t : str),
    ~ List.In COMMA t ->
    parse_tables t = match strip t with [] => [] | _ :: _ => [strip t] end.
Proof.
  intros t Hno. unfold parse_tables. rewrite split_comma_no_comma by exact Hno.
  cbn [List.filter].
  destruct (strip t) eqn:Hstrip; cbn [truthy List.map]; rewrite ?Hstrip;
    reflexivity.
Qed.

Lemma parse_tables_single_witness :
  parse_tables (lit "  order items ") = [lit "order items"].
Proof.
  refine (eq_trans (parse_tables_single (lit "  order items ") _) _).
  - vm_compute. intuition discriminate.
  - vm_compute. reflexivity.
Defined.

Lemma lstrip_by_suffix p s : exists prefix, s = prefix ++ lstrip_by p s.
Proof.
  induction s as [|c s (prefix & IH)]; [exists []; reflexivity|].
  simpl. destruct (p c).
  - exists (c :: prefix). simpl. f_equal. exact IH.
  - exists []. reflexivity.
Qed.

Lemma strip_subset s c : List.In c (strip s) -> List.In c s.
Proof.
  unfold strip. intros Hin.
  destruct (lstrip_by_suffix isspace s) as (prefix & Hs).
  destruct (proj1 (rstrip_by_spec isspace (lstrip_by isspace s)))
    as (suffix & Hl & _).
  rewrite Hs. apply List.in_or_app. right.
  rewrite Hl. apply List.in_or_app. left. exact Hin.
Qed.

(** X12: no configured table name contains a comma, and every one of its
    characters occurs in the setting it was parsed from. *)
Theorem table_names_have_no_comma :
  forall (tables_env t : str),
    List.In t (parse_tables tables_env) ->
    ~ List.In COMMA t /\ forall c, List.In c t -> List.In c tables_env.
Proof.
  intros tables_env t Hin.
  apply parse_tables_in in Hin as (_ & _ & piece & Hpiece & ->).
  pose proof (split_comma_pieces tables_env) as Hall.
  rewrite List.Forall_forall in Hall. specialize (Hall piece Hpiece).
  rewrite List.Forall_forall in Hall.
  split.
  - intros Hc. apply strip_subset in Hc. destruct (Hall _ Hc) as [_ Hne].
    contradiction.
  - intros c Hc. apply strip_subset in Hc. apply (Hall _ Hc).
Qed.

Lemma table_names_have_no_comma_witness :
  ~ List.In COMMA (lit "orders").
Proof.
  refine (proj1 (table_names_have_no_comma (lit "users, orders")
                   (lit "orders") _)).
  vm_compute. right. left. reflexivity.
Defined.

(** ** The two phases of a run *)

Definition is_upload (e : event) : Prop :=
  match e with EvUploadFile _ _ _ => True | _ => False end.

(** Events that reach the database, the output directory or a file. *)
Definition is_export_work (e : event) : Prop :=
  match e with
  | EvMakedirs _ | EvExecute _ _ | EvReadSql _ _ | EvToCsv _ _ _ _ _ => True
  | EvPrint _ _ | EvUploadFile _ _ _ => False
  end.

Lemma emits_export_step_no_upload g engine exported_files t :
  emits (fun e => ~ is_upload e) (export_step g engine exported_files t).
Proof.
  unfold export_step. apply emits_seq.
  { intros w. rewrite table_exists_run. eexists. split; [reflexivity|].
    repeat constructor. simpl. tauto. }
  intros found. destruct (negb found).
  { apply emits_seq; [apply emits_emit; simpl; tauto|].
    intros _. apply emits_pure. }
  apply emits_seq; [|intros path; apply emits_pure].
  unfold export_table_to_csv.
  apply emits_seq; [apply emits_safe_ident|]. intros table.
  apply emits_seq; [apply emits_safe_ident|]. intros schema.
  apply emits_seq; [apply emits_read_sql; simpl; tauto|]. intros chunks.
  apply emits_seq.
  { apply emits_for_in. intros [hw rc] chunk _. unfold export_chunk.
    apply emits_seq; [apply emits_to_csv; simpl; tauto|].
    intros _. apply emits_pure. }
  intros st. apply emits_seq; [apply emits_emit; simpl; tauto|].
  intros _. apply emits_pure.
Qed.

Lemma emits_upload_step_no_export g aws u path :
  emits (fun e => ~ is_export_work e) (upload_step g aws u path).
Proof.
  unfold upload_step. apply emits_seq; [|intros _; apply emits_pure].
  unfold upload_to_s3. apply emits_seq; [apply emits_emit; simpl; tauto|].
  intros _.
  destruct (upload_file _ _ _ _);
    try (apply emits_seq; [apply emits_emit; simpl; tauto|]; intros _);
    apply emits_pure.
Qed.

(** [phased Q1 Q2 m]: what [m] adds to the trace is a run of events
    satisfying [Q1] followed by a run of events satisfying [Q2]. *)
Definition phased {A : Type} (Q1 Q2 : event -> Prop) (m : M A) : Prop :=
  forall w, exists before after,
    trace (snd (m w)) = trace w ++ before ++ after
    /\ List.Forall Q1 before /\ List.Forall Q2 after.

Lemma phased_second {A : Type} Q1 Q2 (m : M A) : emits Q2 m -> phased Q1 Q2 m.
Proof.
  intros Hm w. destruct (Hm w) as (evs & Ht & Hall).
  exists [], evs. auto.
Qed.

Lemma phased_bind {A B : Type} Q1 Q2 (m : M A) (k : A -> M B) :
  emits Q1 m -> (forall a, phased Q1 Q2 (k a)) -> phased Q1 Q2 (bind m k).
Proof.
  intros Hm Hk w. unfold bind. destruct (Hm w) as (evs & Ht & Hall).
  destruct (m w) as [[a | e | c] w1]; simpl in *.
  - destruct (Hk a w1) as (before & after & Ht2 & Hb & Ha).
    exists (evs ++ before), after.
    rewrite Ht2, Ht, <- !app_assoc. split; [reflexivity|].
    split; [apply Forall_app; auto | exact Ha].
  - exists evs, []. rewrite app_nil_r. auto.
  - exists evs, []. rewrite app_nil_r. auto.
Qed.

(** X13: in every run of [main] the uploads come last: once the first
    file is handed to S3, no directory is made, no statement is sent to
    the database and no file is written any more.  All tables are
    processed before any upload starts, however the run ends. *)
Theorem main_uploads_after_all_exports :
  forall (g : Globals) (pg : Database) (aws : Aws) (w : World),
    exists before after,
      trace (snd (main g pg aws w)) = trace w ++ before ++ after
      /\ List.Forall (fun e => ~ is_upload e) before
      /\ List.Forall (fun e => ~ is_export_work e) after.
Proof.
  intros g pg aws. unfold main.
  apply phased_bind.
  { apply emits_when, emits_seq; [apply emits_emit; simpl; tauto|].
    intros _. apply emits_pure. }
  intros _. apply phased_bind.
  { apply emits_when, emits_seq; [apply emits_emit; simpl; tauto|].
    intros _. apply emits_pure. }
  intros _. apply phased_bind;
    [apply emits_ensure_output_dir; simpl; tauto|].
  intros _. apply phased_bind.
  { apply emits_for_in. intros acc t _. apply emits_export_step_no_upload. }
  intros exported_files. apply phased_second.
  apply emits_seq.
  { apply emits_when, emits_seq; [apply emits_emit; simpl; tauto|].
    intros _. apply emits_pure. }
  intros _. apply emits_seq.
  { apply emits_for_in. intros acc path _. apply emits_upload_step_no_export. }
  intros _. apply emits_emit. simpl. tauto.
Qed.

(** ** Runs that succeed *)

(** The catalog's answer for a table, as [table_exists] reads it. *)
Definition present (g : Globals) (pg : Database) (t : str) : bool :=
  match db_scalar pg CATALOG_SQL
          [(lit "schema", PG_SCHEMA g); (lit "tbl", t)] with
  | DbOk count => or_0 count >? 0
  | DbFail => false
  end.

(** A table the run can deal with: the catalog answers, and when it
    reports the table its name passes the guard and it can be read. *)
Definition exportable (g : Globals) (pg : Database) (t : str) : Prop :=
  db_scalar pg CATALOG_SQL [(lit "schema", PG_SCHEMA g); (lit "tbl", t)]
    <> DbFail
  /\ (present g pg t = true ->
      VALID_IDENT_match t = true
      /\ exists df, db_select pg (select_query (PG_SCHEMA g) t) = DbOk df).

Definition export_path (g : Globals) (t : str) : str :=
  path_join (OUTPUT_DIR g) (csv_filename g t).

(** What the upload of [path] adds to the trace when S3 accepts it. *)
Definition upload_events (g : Globals) (path : str) : list event :=
  [EvUploadFile path (S3_BUCKET g) (upload_key path (Some (S3_PREFIX g)));
   EvPrint Stdout
     (MsgOkUpload (S3_BUCKET g) (upload_key path (Some (S3_PREFIX g))))].

Lemma for_in_app {A S : Type} (body : S -> A -> M S) xs ys acc w :
  for_in body (xs ++ ys) acc w
  = bind (for_in body xs acc) (for_in body ys) w.
Proof.
  revert acc w. induction xs as [|x xs IH]; intros acc w; [reflexivity|].
  cbn [app for_in]. unfold bind in *.
  destruct (body acc x w) as [[acc' | e | c] w1]; [apply IH | reflexivity..].
Qed.

(** The disk takes the exports of [tbls]: the separator is one character
    and every append to the output file of one of these tables goes
    through. *)
Definition takes_exports (g : Globals) (d : Disk) (tbls : list str) : Prop :=
  List.length (CSV_SEP g) = 1%nat
  /\ forall t, List.In t tbls -> accepts_appends d (export_path g t).

(** One turn of the loop for a table the run can deal with. *)
Lemma export_step_exportable g pg acc t w :
  VALID_IDENT_match (PG_SCHEMA g) = true ->
  0 < CHUNKSIZE g ->
  exportable g pg t ->
  List.length (CSV_SEP g) = 1%nat ->
  accepts_appends (disk w) (export_path g t) ->
  exists fs evs,
    export_step g (get_engine g pg) acc t w
    = (Ret (acc ++ (if present g pg t then [export_path g t] else [])),
       mk_world fs (trace w ++ evs) (disk w))
    /\ List.Forall (fun e => ~ is_upload e) evs.
Proof.
  intros Hs Hc [Hans Hpres] Hsep Hdisk.
  destruct (emits_export_step_no_upload g (get_engine g pg) acc t w)
    as (evs & Htr & Hno).
  revert Htr. rewrite export_step_run. cbn [server get_engine].
  unfold present in Hpres |- *.
  destruct (db_scalar pg CATALOG_SQL
              [(lit "schema", PG_SCHEMA g); (lit "tbl", t)])
    as [count|]; [|contradiction].
  destruct (or_0 count >? 0).
  - destruct (Hpres eq_refl) as (Ht & df & Hdf).
    rewrite (bind_ret _ _ _ _ _
               (export_table_to_csv_run g (get_engine g pg) t (OUTPUT_DIR g)
                  df (mk_world (files w)
                        (trace w
                         ++ [EvExecute CATALOG_SQL
                               [(lit "schema", PG_SCHEMA g); (lit "tbl", t)]])
                        (disk w))
                  Ht Hs Hc Hdf Hsep Hdisk)).
    unfold ret. cbn [snd files trace disk]. intros Htr. rewrite Htr.
    eexists _, evs. split; [reflexivity | exact Hno].
  - cbn [snd trace]. intros Htr. rewrite Htr, app_nil_r.
    exists (files w), evs. split; [reflexivity | exact Hno].
Qed.


Lemma export_loop_outcome g pg tbls :
  VALID_IDENT_match (PG_SCHEMA g) = true ->
  0 < CHUNKSIZE g ->
  List.Forall (exportable g pg) tbls ->
  forall acc w,
    takes_exports g (disk w) tbls ->
    exists fs exports,
      for_in (export_step g (get_engine g pg)) tbls acc w
      = (Ret (acc ++ List.map (export_path g)
                       (List.filter (present g pg) tbls)),
         mk_world fs (trace w ++ exports) (disk w))
      /\ List.Forall (fun e => ~ is_upload e) exports.
Proof.
  intros Hs Hc Hall. induction Hall as [|t tbls Ht _ IH];
    intros acc w [Hsep Hdisk].
  - exists (files w), []. cbn [for_in List.filter List.map]. unfold ret.
    rewrite !app_nil_r. destruct w; auto.
  - destruct (export_step_exportable g pg acc t w Hs Hc Ht Hsep
                (Hdisk t (or_introl eq_refl)))
      as (fs1 & evs1 & Hstep & Hno1).
    cbn [for_in]. rewrite (bind_ret _ _ _ _ _ Hstep).
    destruct (IH (acc ++ (if present g pg t then [export_path g t] else []))
                (mk_world fs1 (trace w ++ evs1) (disk w)))
      as (fs2 & evs2 & Hloop & Hno2).
    { split; [exact Hsep|]. intros t' Hin. cbn [disk]. apply Hdisk.
      right. exact Hin. }
    rewrite Hloop. cbn [trace disk]. exists fs2, (evs1 ++ evs2). split.
    + rewrite <- !app_assoc. cbn [List.filter].
      destruct (present g pg t); reflexivity.
    + apply Forall_app; auto.
Qed.

(** With a complete configuration and tables the run can deal with, of
    which at least one exists, [main] reaches its upload loop. *)
Lemma main_reaches_uploads g pg aws w :
  env_incomplete g = false ->
  truthy (S3_BUCKET g) = true ->
  VALID_IDENT_match (PG_SCHEMA g) = true ->
  0 < CHUNKSIZE g ->
  can_make_dir w (OUTPUT_DIR g) ->
  takes_exports g (disk w) (TABLES g) ->
  List.Forall (exportable g pg) (TABLES g) ->
  List.filter (present g pg) (TABLES g) <> [] ->
  exists fs exports,
    main g pg aws w
    = (for_in (upload_step g aws)
         (List.map (export_path g) (List.filter (present g pg) (TABLES g))) tt ;;
       print Stdout MsgDone)
        (mk_world fs (trace w ++ [EvMakedirs (OUTPUT_DIR g)] ++ exports) (disk w))
    /\ List.Forall (fun e => ~ is_upload e) exports.
Proof.
  intros Henv Hbucket Hs Hc Hdir Htakes Hall Hsome.
  rewrite main_config_ok by assumption. unfold main_checked.
  destruct (export_loop_outcome g pg (TABLES g) Hs Hc Hall []
              (mk_world (files w) (trace w ++ [EvMakedirs (OUTPUT_DIR g)])
                 (disk w)) Htakes) as (fs & exports & Hloop & Hno).
  rewrite (bind_ret _ _ _ _ _ Hloop). cbn [app trace].
  exists fs, exports. split; [|exact Hno].
  destruct (List.filter (present g pg) (TABLES g)) as [|t ts];
    [contradiction|].
  cbn [List.map when_]. rewrite (bind_ret _ _ _ tt _ eq_refl).
  rewrite <- app_assoc. reflexivity.
Qed.


(** Scenario A: two tables configured, the second unknown to the
    catalog. *)
Definition pg_users_only : Database :=
  mk_database
    (fun _ params =>
       if decide (params = [(lit "schema", lit "public");
                            (lit "tbl", lit "users")])
       then DbOk (Some 1) else DbOk (Some 0))
    (fun _ => DbOk frame_three_rows)
    (fun _ _ => DbFail).

Definition globals_two_tables : Globals :=
  mk_globals (lit "localhost") 5432 (lit "shop") (lit "etl") (lit "secret")
    (lit "public") (lit "users,orders") (parse_tables (lit "users,orders"))
    (lit ",") (lit "MINIMAL") [NEWLINE] 2 (lit "/app/out") (lit "lake")
    (lit "raw//") (lit "us-east-1") (lit "20240101T000000Z").


(** ** Runs that abort *)

Lemma main_aborts_in_loop g pg aws w pre t post e evs_t :
  env_incomplete g = false ->
  truthy (S3_BUCKET g) = true ->
  VALID_IDENT_match (PG_SCHEMA g) = true ->
  0 < CHUNKSIZE g ->
  can_make_dir w (OUTPUT_DIR g) ->
  takes_exports g (disk w) pre ->
  TABLES g = pre ++ t :: post ->
  List.Forall (exportable g pg) pre ->
  (forall acc w0,
      export_step g (get_engine g pg) acc t w0
      = (Raise e, mk_world (files w0) (trace w0 ++ evs_t) (disk w0))) ->
  exists fs evs,
    main g pg aws w
    = (Raise e,
       mk_world fs
         (trace w ++ [EvMakedirs (OUTPUT_DIR g)] ++ evs ++ evs_t) (disk w))
    /\ List.Forall (fun ev => ~ is_upload ev) evs.
Proof.
  intros Henv Hbucket Hs Hc Hdir Htakes Htables Hpre Hstep.
  rewrite main_config_ok by assumption. unfold main_checked.
  rewrite Htables.
  destruct (export_loop_outcome g pg pre Hs Hc Hpre []
              (mk_world (files w) (trace w ++ [EvMakedirs (OUTPUT_DIR g)])
                 (disk w)) Htakes) as (fs & evs & Hloop & Hno).
  exists fs, evs. split; [|exact Hno].
  apply bind_raise. rewrite for_in_app.
  rewrite (bind_ret _ _ _ _ _ Hloop). cbn [for_in].
  rewrite (bind_raise _ _ _ _ _ (Hstep _ _)). cbn [files trace].
  rewrite <- !app_assoc. reflexivity.
Qed.

(** X15: when the output directory can be made, the disk takes the
    exports of the tables dealt with so far (separator of one character)
    and the existence check of the next table fails, because no
    connection can be opened or because the statement fails, [main] stops
    there with that error (exit status 1): the call of the existence
    check for this table is the last call the run makes, the tables after
    it in the list are never looked at, and nothing is uploaded, not even
    the files of tables exported before the failure. *)
Theorem main_aborts_on_catalog_failure :
  forall (g : Globals) (pg : Database) (aws : Aws) (w : World)
         (pre : list str) (t : str) (post : list str),
    env_incomplete g = false ->
    truthy (S3_BUCKET g) = true ->
    VALID_IDENT_match (PG_SCHEMA g) = true ->
    0 < CHUNKSIZE g ->
    can_make_dir w (OUTPUT_DIR g) ->
    takes_exports g (disk w) pre ->
    TABLES g = pre ++ t :: post ->
    List.Forall (exportable g pg) pre ->
    db_scalar pg CATALOG_SQL [(lit "schema", PG_SCHEMA g); (lit "tbl", t)]
      = DbFail ->
    let r := main g pg aws w in
    fst r = Raise DatabaseError
    /\ exit_status (fst r) = 1
    /\ exists evs,
         trace (snd r)
         = trace w ++ [EvMakedirs (OUTPUT_DIR g)] ++ evs
           ++ [EvExecute CATALOG_SQL
                 [(lit "schema", PG_SCHEMA g); (lit "tbl", t)]]
         /\ List.Forall (fun ev => ~ is_upload ev) evs.
Proof.
  intros g pg aws w pre t post Henv Hbucket Hs Hc Hdir Htakes Htables Hpre
    Hfail r.
  subst r.
  destruct (main_aborts_in_loop g pg aws w pre t post DatabaseError
              [EvExecute CATALOG_SQL
                 [(lit "schema", PG_SCHEMA g); (lit "tbl", t)]]
              Henv Hbucket Hs Hc Hdir Htakes Htables Hpre)
    as (fs & evs & Hmain & Hno).
  { intros acc w0. rewrite export_step_run. cbn [server get_engine].
    rewrite Hfail. reflexivity. }
  rewrite Hmain. cbn [fst snd trace]. eauto.
Qed.

(** A database that fails on every catalog query. *)
Definition pg_down : Database :=
  mk_database (fun _ _ => DbFail) (fun _ => DbFail)
    (fun _ _ => DbFail).

Lemma main_aborts_on_catalog_failure_witness :
  fst (main globals_two_tables pg_down aws_accepting world_empty)
  = Raise DatabaseError.
Proof.
  refine (proj1 (main_aborts_on_catalog_failure globals_two_tables pg_down
                   aws_accepting world_empty [] (lit "users") [lit "orders"]
                   eq_refl eq_refl eq_refl eq_refl _ _ _ _ eq_refl)).
  - split; [discriminate | split; vm_compute; reflexivity].
  - split; [reflexivity | intros t []].
  - vm_compute. reflexivity.
  - constructor.
Defined.

(** X16: when the output directory can be made, the disk takes the
    exports of the tables dealt with so far (separator of one character)
    and the catalog reports a configured table whose name does not
    pass the guard, [main] stops at that table with [ValueError] for the
    name (exit status 1), right after the catalog query for it: no
    statement with the name is sent, later tables are never looked at and
    nothing is uploaded, although tables exported earlier have left their
    files. *)
Theorem main_aborts_on_unguarded_table :
  forall (g : Globals) (pg : Database) (aws : Aws) (w : World)
         (pre : list str) (t : str) (post : list str),
    env_incomplete g = false ->
    truthy (S3_BUCKET g) = true ->
    VALID_IDENT_match (PG_SCHEMA g) = true ->
    0 < CHUNKSIZE g ->
    can_make_dir w (OUTPUT_DIR g) ->
    takes_exports g (disk w) pre ->
    TABLES g = pre ++ t :: post ->
    List.Forall (exportable g pg) pre ->
    present g pg t = true ->
    VALID_IDENT_match t = false ->
    let r := main g pg aws w in
    fst r = Raise (ValueError t)
    /\ exit_status (fst r) = 1
    /\ exists evs,
         trace (snd r)
         = trace w ++ [EvMakedirs (OUTPUT_DIR g)] ++ evs
           ++ [EvExecute CATALOG_SQL
                 [(lit "schema", PG_SCHEMA g); (lit "tbl", t)]]
         /\ List.Forall (fun ev => ~ is_upload ev) evs.
Proof.
  intros g pg aws w pre t post Henv Hbucket Hs Hc Hdir Htakes Htables Hpre
    Hpres Hbad r.
  subst r.
  destruct (main_aborts_in_loop g pg aws w pre t post (ValueError t)
              [EvExecute CATALOG_SQL
                 [(lit "schema", PG_SCHEMA g); (lit "tbl", t)]]
              Henv Hbucket Hs Hc Hdir Htakes Htables Hpre)
    as (fs & evs & Hmain & Hno).
  { intros acc w0. rewrite export_step_run. cbn [server get_engine].
    unfold present in Hpres.
    destruct (db_scalar pg CATALOG_SQL
                [(lit "schema", PG_SCHEMA g); (lit "tbl", t)])
      as [count|]; [|discriminate].
    rewrite Hpres. apply bind_raise. unfold export_table_to_csv.
    apply bind_raise, safe_ident_raises, Hbad. }
  rewrite Hmain. cbn [fst snd trace]. eauto.
Qed.

Definition globals_users_then_bad : Globals :=
  mk_globals (lit "localhost") 5432 (lit "shop") (lit "etl") (lit "secret")
    (lit "public") (lit "users,order items")
    (parse_tables (lit "users,order items"))
    (lit ",") (lit "MINIMAL") [NEWLINE] 2 (lit "/app/out") (lit "lake")
    (lit "raw//") (lit "us-east-1") (lit "20240101T000000Z").

Lemma main_aborts_on_unguarded_table_witness :
  fst (main globals_users_then_bad pg_three_rows aws_accepting world_empty)
  = Raise (ValueError (lit "order items")).
Proof.
  refine (proj1 (main_aborts_on_unguarded_table globals_users_then_bad
                   pg_three_rows aws_accepting world_empty [lit "users"]
                   (lit "order items") [] eq_refl eq_refl eq_refl eq_refl
                   _ _ _ _ eq_refl eq_refl)).
  - split; [discriminate | split; vm_compute; reflexivity].
  - split; [reflexivity | intros t _ fmt header chunk; reflexivity].
  - vm_compute. reflexivity.
  - constructor; [|constructor].
    split; [vm_compute; discriminate|].
    intros _. split; [reflexivity|]. eexists. reflexivity.
Defined.

(** ** Uploads that fail *)

Definition is_stderr_print (e : event) : Prop :=
  exists m, e = EvPrint Stderr m.

(** A refused upload raises after that one attempt and whatever it
    reports on standard error. *)
Lemma upload_to_s3_refused g aws local_path bucket prefix w :
  upload_file (s3_client g aws) local_path bucket
    (upload_key local_path prefix) <> UploadOk ->
  exists e reports,
    upload_to_s3 g aws local_path bucket prefix w
    = (Raise e,
       mk_world (files w)
         (trace w
          ++ EvUploadFile local_path bucket (upload_key local_path prefix)
             :: reports) (disk w))
    /\ List.Forall is_stderr_print reports.
Proof.
  intros Hbad. unfold upload_to_s3.
  unfold bind at 1, emit at 1. cbn [fst snd].
  destruct (upload_file (s3_client g aws) local_path bucket
              (upload_key local_path prefix)); [contradiction|..];
    unfold bind, print, emit, raise; cbn [files trace];
    rewrite <- ?app_assoc; eexists _, _; (split; [reflexivity|]);
    repeat constructor; eexists; reflexivity.
Qed.


(** An S3 client without credentials. *)
Definition aws_no_credentials : Aws :=
  fun _ => mk_s3_client (fun _ _ _ => UploadNoCredentials).


(** X18: when the output directory can be made and the disk takes every
    append to the export files (separator of one character), so that the
    exports are done, the first upload the S3 client does not accept ends
    the run with an error (exit status 1).  The files
    before it in export order were uploaded, the files after it are never
    attempted, the final line is not printed, and the upload phase
    changes no local file: everything exported stays on disk. *)
Theorem main_aborts_on_upload_failure :
  forall (g : Globals) (pg : Database) (aws : Aws) (w : World)
         (pre : list str) (p : str) (post : list str),
    env_incomplete g = false ->
    truthy (S3_BUCKET g) = true ->
    VALID_IDENT_match (PG_SCHEMA g) = true ->
    0 < CHUNKSIZE g ->
    can_make_dir w (OUTPUT_DIR g) ->
    takes_exports g (disk w) (TABLES g) ->
    List.Forall (exportable g pg) (TABLES g) ->
    List.map (export_path g) (List.filter (present g pg) (TABLES g))
      = pre ++ p :: post ->
    (forall path, List.In path pre ->
        upload_file (s3_client g aws) path (S3_BUCKET g)
          (upload_key path (Some (S3_PREFIX g))) = UploadOk) ->
    upload_file (s3_client g aws) p (S3_BUCKET g)
      (upload_key p (Some (S3_PREFIX g))) <> UploadOk ->
    let r := main g pg aws w in
    exists e exports reports,
      fst r = Raise e
      /\ exit_status (fst r) = 1
      /\ trace (snd r)
         = trace w ++ [EvMakedirs (OUTPUT_DIR g)] ++ exports
           ++ List.flat_map (upload_events g) pre
           ++ EvUploadFile p (S3_BUCKET g)
                (upload_key p (Some (S3_PREFIX g))) :: reports
      /\ List.Forall (fun ev => ~ is_upload ev) exports
      /\ List.Forall is_stderr_print reports.
Proof.
  intros g pg aws w pre p post Henv Hbucket Hs Hc Hdir Htakes Hall Hpaths
    Hpre Hbad r.
  subst r.
  assert (List.filter (present g pg) (TABLES g) <> []) as Hsome.
  { intros Hnil. rewrite Hnil in Hpaths. destruct pre; discriminate. }
  destruct (main_reaches_uploads g pg aws w Henv Hbucket Hs Hc Hdir Htakes
              Hall Hsome) as (fs & exports & Hmain & Hno).
  rewrite Hmain, Hpaths. clear Hmain.
  destruct (upload_to_s3_refused g aws p (S3_BUCKET g) (Some (S3_PREFIX g))
              (mk_world fs
                 ((trace w ++ [EvMakedirs (OUTPUT_DIR g)] ++ exports)
                  ++ List.flat_map (upload_events g) pre) (disk w)) Hbad)
    as (e & reports & Hup & Hreports).
  exists e, exports, reports.
  assert (forall w0,
             for_in (upload_step g aws) pre tt w0
             = (Ret tt,
                mk_world (files w0)
                  (trace w0 ++ List.flat_map (upload_events g) pre) (disk w0)))
    as Hloop.
  { clear -Hpre. induction pre as [|q pre IH]; intros w0.
    - simpl. unfold ret. rewrite app_nil_r. destruct w0; reflexivity.
    - cbn [for_in List.flat_map]. unfold bind at 1, upload_step at 1.
      unfold bind at 1, upload_to_s3, bind at 1, emit at 1. cbn [fst snd].
      rewrite (Hpre q (or_introl eq_refl)).
      unfold bind, print, emit, ret. cbn [files trace].
      rewrite IH by (intros path Hin; apply Hpre; right; exact Hin).
      cbn [files trace]. unfold upload_events at 2.
      rewrite <- !app_assoc. reflexivity. }
  assert ((for_in (upload_step g aws) (pre ++ p :: post) tt ;;
           print Stdout MsgDone)
            (mk_world fs (trace w ++ [EvMakedirs (OUTPUT_DIR g)] ++ exports) (disk w))
          = (Raise e,
             mk_world fs
               (trace w ++ [EvMakedirs (OUTPUT_DIR g)] ++ exports
                ++ List.flat_map (upload_events g) pre
                ++ EvUploadFile p (S3_BUCKET g)
                     (upload_key p (Some (S3_PREFIX g))) :: reports) (disk w)))
    as Hrun.
  { apply bind_raise. rewrite for_in_app.
    rewrite (bind_ret _ _ _ _ _ (Hloop _)). cbn [for_in files trace disk].
    apply bind_raise. unfold upload_step. apply bind_raise.
    rewrite Hup. cbn [files trace]. f_equal. f_equal.
    rewrite <- !app_assoc. reflexivity. }
  rewrite Hrun. cbn [fst snd trace]. auto.
Qed.

Lemma main_aborts_on_upload_failure_witness :
  exists e,
    fst (main globals_two_tables pg_users_only aws_no_credentials world_empty)
    = Raise e.
Proof.
  destruct (main_aborts_on_upload_failure globals_two_tables pg_users_only
              aws_no_credentials world_empty []
              (lit "/app/out/users_20240101T000000Z.csv") []
              eq_refl eq_refl eq_refl eq_refl)
    as (e & _ & _ & Hraise & _).
  - split; [discriminate | split; vm_compute; reflexivity].
  - split; [reflexivity | intros t _ fmt header chunk; reflexivity].
  - constructor; [|constructor; [|constructor]].
    + split; [vm_compute; discriminate|].
      intros _. split; [reflexivity|]. eexists. reflexivity.
    + split; [vm_compute; discriminate|].
      intros H. vm_compute in H. discriminate.
  - vm_compute. reflexivity.
  - intros path [].
  - discriminate.
  - exists e. exact Hraise.
Defined.

(** ** The script as a whole *)

Section Script.
Variable unicode_upper : char -> str.
Variable py_int : str -> option Z.

(** X19: when [PG_PORT] or [CHUNKSIZE] is not a number the script dies
    while the module is loaded, with [ValueError] for the offending text
    (exit status 1): [main] never starts, so nothing is checked, printed,
    created, queried or uploaded, and the duration line is not printed
    either. *)
Theorem run_dies_on_bad_number :
  forall (now : str) (env : gmap str str) (pg : Database) (aws : Aws)
         (w : World),
    py_int (getenv env "PG_PORT" (lit "5432")) = None
    \/ py_int (getenv env "CHUNKSIZE" (lit "100000")) = None ->
    exists text,
      run unicode_upper py_int now env pg aws w = (Raise (ValueError text), w)
      /\ (text = getenv env "PG_PORT" (lit "5432")
          \/ text = getenv env "CHUNKSIZE" (lit "100000"))
      /\ py_int text = None.
Proof.
  intros now env pg aws w Hbad. unfold run, load_globals.
  destruct (py_int (getenv env "PG_PORT" (lit "5432"))) as [port|] eqn:Hport.
  - destruct Hbad as [Hbad | Hbad]; [discriminate|].
    rewrite Hbad. eexists. split; [reflexivity|]. auto.
  - eexists. split; [reflexivity|]. auto.
Qed.

(** X20: when the module loads, the outcome of the script is the outcome
    of [main], the files are those [main] leaves, and the duration line is
    printed after everything [main] did, also when [main] ends with
    [SystemExit] or with an exception. *)
Theorem run_prints_duration_last :
  forall (now : str) (env : gmap str str) (pg : Database) (aws : Aws)
         (w : World) (g : Globals),
    load_globals unicode_upper py_int now env = inr g ->
    let r := run unicode_upper py_int now env pg aws w in
    let m := main g pg aws w in
    fst r = fst m
    /\ files (snd r) = files (snd m)
    /\ trace (snd r) = trace (snd m) ++ [EvPrint Stdout MsgDuration]
    /\ exists evs, trace (snd m) = trace w ++ evs.
Proof.
  intros now env pg aws w g Hload r m. subst r m.
  rewrite (run_loaded _ _ _ _ _ _ _ _ Hload). cbn [fst snd files trace].
  repeat apply conj; try reflexivity.
  destruct (emits_main g pg aws w) as (evs & Htrace & _). eauto.
Qed.
End Script.

Lemma run_dies_on_bad_number_witness :
  exists text,
    run no_unicode_upper int_of_digits (lit "20240101T000000Z")
      (<[lit "PG_PORT" := lit "54x2"]> ∅) pg_three_rows aws_accepting
      world_empty
    = (Raise (ValueError text), world_empty).
Proof.
  destruct (run_dies_on_bad_number no_unicode_upper int_of_digits
              (lit "20240101T000000Z") (<[lit "PG_PORT" := lit "54x2"]> ∅)
              pg_three_rows aws_accepting world_empty)
    as (text & Hrun & _).
  - left. vm_compute. reflexivity.
  - exists text. exact Hrun.
Defined.

Lemma run_prints_duration_last_witness :
  trace (snd (run no_unicode_upper int_of_digits (lit "20240101T000000Z")
                ∅ pg_three_rows aws_accepting world_empty))
  = [EvPrint Stderr MsgMissingEnv; EvPrint Stdout MsgDuration].
Proof.
  assert (load_globals no_unicode_upper int_of_digits
            (lit "20240101T000000Z") ∅
          = inr (mk_globals (lit "localhost") 5432 [] [] [] (lit "public")
                   [] [] (lit ",") (lit "MINIMAL") [NEWLINE] 100000
                   (lit "/app/out") [] [] (lit "us-east-1")
                   (lit "20240101T000000Z"))) as Hload
    by (vm_compute; reflexivity).
  destruct (run_prints_duration_last no_unicode_upper int_of_digits _ _
              pg_three_rows aws_accepting world_empty _ Hload)
    as (_ & _ & Htrace & _).
  rewrite Htrace. vm_compute. reflexivity.
Defined.

(** ** Letter case of the quoting mode *)



(** ** What a normal return means *)

Lemma upload_step_starts_with_upload g aws u path w :
  exists evs,
    trace (snd (upload_step g aws u path w))
    = trace w
      ++ EvUploadFile path (S3_BUCKET g)
           (upload_key path (Some (S3_PREFIX g))) :: evs.
Proof.
  unfold upload_step, upload_to_s3, bind, emit, print, emit, raise, ret.
  cbn [fst snd files trace].
  destruct (upload_file _ _ _ _); cbn [fst snd trace];
    rewrite <- ?app_assoc; eexists; reflexivity.
Qed.

(** X22: [main] returns normally only after it has uploaded something: if
    the outcome is a plain return, then the configuration was complete,
    at least one upload call was made, and the last thing printed is the
    final line. *)
Theorem main_returns_only_after_upload :
  forall (g : Globals) (pg : Database) (aws : Aws) (w : World),
    fst (main g pg aws w) = Ret tt ->
    env_incomplete g = false
    /\ truthy (S3_BUCKET g) = true
    /\ exists evs,
         trace (snd (main g pg aws w))
         = trace w ++ evs ++ [EvPrint Stdout MsgDone]
         /\ List.Exists is_upload evs.
Proof.
  intros g pg aws w Hret.
  destruct (env_incomplete g) eqn:Henv.
  { rewrite main_env_incomplete in Hret by exact Henv. discriminate. }
  destruct (truthy (S3_BUCKET g)) eqn:Hbucket.
  2:{ rewrite main_bucket_missing in Hret by assumption. discriminate. }
  split; [reflexivity|]. split; [reflexivity|].
  revert Hret. rewrite main_past_checks by assumption. unfold bind.
  destruct (ensure_output_dir_cases (OUTPUT_DIR g) w)
    as (o & -> & [-> | (e0 & ->)]); [|intros; discriminate].
  cbv beta iota. unfold main_checked.
  set (w1 := mk_world (files w) (trace w ++ [EvMakedirs (OUTPUT_DIR g)]) (disk w)).
  destruct (emits_for_in (fun _ => True) (export_step g (get_engine g pg))
              (TABLES g)
              (fun a t _ =>
                 emits_weaken _ _ _ (fun _ _ => I)
                   (emits_export_step_no_upload g _ a t)) [] w1)
    as (exports & Hexports & _).
  unfold bind.
  destruct (for_in (export_step g (get_engine g pg)) (TABLES g) [] w1)
    as [[exported | e | c] w2]; cbn [fst snd] in *;
    try (intros; discriminate).
  destruct exported as [|p ps]; [intros; discriminate|].
  cbn [when_]. unfold ret. cbn [for_in fst snd]. unfold bind.
  destruct (upload_step_starts_with_upload g aws tt p w2) as (ev1 & Hfirst).
  destruct (upload_step g aws tt p w2) as [[[] | e | c] w3];
    cbn [fst snd] in *; try (intros; discriminate).
  destruct (emits_for_in (fun _ => True) (upload_step g aws) ps
              (fun a q _ =>
                 emits_weaken _ _ _ (fun _ _ => I)
                   (emits_upload_step_no_export g aws a q)) tt w3)
    as (ev2 & Hrest & _).
  destruct (for_in (upload_step g aws) ps tt w3) as [[[] | e | c] w4];
    cbn [fst snd] in *; try (intros; discriminate).
  intros _. unfold print, emit. cbn [snd trace].
  exists ([EvMakedirs (OUTPUT_DIR g)] ++ exports
          ++ (EvUploadFile p (S3_BUCKET g)
                (upload_key p (Some (S3_PREFIX g))) :: ev1) ++ ev2).
  split.
  - rewrite Hrest, Hfirst, Hexports. unfold w1. cbn [trace].
    rewrite <- !app_assoc. reflexivity.
  - apply List.Exists_app. right. apply List.Exists_app. right.
    apply List.Exists_app. left. constructor. exact I.
Qed.

Lemma main_returns_only_after_upload_witness :
  exists evs,
    trace (snd (main globals_two_tables pg_users_only aws_accepting
                  world_empty))
    = evs ++ [EvPrint Stdout MsgDone]
    /\ List.Exists is_upload evs.
Proof.
  destruct (main_returns_only_after_upload globals_two_tables pg_users_only
              aws_accepting world_empty)
    as (_ & _ & evs & Htrace & Hup).
  - vm_compute. reflexivity.
  - exists evs. split; [exact Htrace | exact Hup].
Defined.
